(** * Excalibur: frame statistics (engine/Debug.ts) and texture loading (Texture)

    A shallow embedding of the two source files and the properties of
    their specification.

    - [FrameStats]: the per-frame statistics record of [Debug.ts].  JavaScript
      objects live in a heap indexed by locations, so that identity, aliasing
      and in-place mutation can be stated; a JavaScript [number] is an IEEE 754
      binary64 value, that is Rocq's primitive [float].
    - [Texture]: the load pipeline of the [Texture] resource as an event-driven
      state machine: a call of [load()], the completion of the underlying
      fetch, and the image element's [load] event are the steps. *)

From Stdlib Require Import Floats.
From stdpp Require Import gmap strings list.

(** A JavaScript [number]. *)
Definition number := float.

(** [x === y] on numbers: the comparison of IEEE 754, which holds +0 and
    -0 equal and NaN unequal to every number, itself included. *)
Definition strict_equals (x y : number) : bool := PrimFloat.eqb x y.

(** A heap location (object identity). *)
Abbreviation loc := nat.

(* ===================================================================== *)
(** * Part I: engine/Debug.ts *)
(* ===================================================================== *)

(** ** The interfaces [IFrameActorStats], [IFrameDurationStats], [IFrameStats]

    A value of an interface type is any object with these properties.  The
    records below are such objects with plain data properties: every
    property, the derived ones included, is stored. *)

Module IFrameActorStats.
Record t := mk {
  alive : number;
  killed : number;
  remaining : number;
  ui : number;
  total : number }.
End IFrameActorStats.

Module IFrameDurationStats.
Record t := mk {
  update : number;
  draw : number;
  total : number }.
End IFrameDurationStats.

Record IFrameStats := mkIFrameStats {
  id : number;
  delta : number;
  fps : number;
  duration : IFrameDurationStats.t;
  actors : IFrameActorStats.t }.

(** ** The object literals held by a [FrameStats]

    [_actorStats] stores [alive], [killed] and [ui]; [remaining] and [total]
    are getters of the literal.  [_durationStats] stores [update] and [draw];
    [total] is a getter. *)

Module ActorStats.
#[local] Open Scope float_scope.
Record t := mk {
  alive : number;
  killed : number;
  ui : number }.

(** [get remaining() { return this.alive - this.killed; }] *)
Definition remaining (this : t) : number := alive this - killed this.

(** [get total() { return this.remaining + this.ui; }] *)
Definition total (this : t) : number := remaining this + ui this.

Definition with_alive (v : number) (this : t) : t := mk v (killed this) (ui this).
Definition with_killed (v : number) (this : t) : t := mk (alive this) v (ui this).
Definition with_ui (v : number) (this : t) : t := mk (alive this) (killed this) v.
End ActorStats.

Module DurationStats.
#[local] Open Scope float_scope.
Record t := mk {
  update : number;
  draw : number }.

(** [get total() { return this.update + this.draw; }] *)
Definition total (this : t) : number := update this + draw this.

Definition with_update (v : number) (this : t) : t := mk v (draw this).
Definition with_draw (v : number) (this : t) : t := mk (update this) v.
End DurationStats.

(** ** The class [FrameStats] *)

Module FrameStats.
#[local] Open Scope float_scope.

(** The private fields of an instance.  The two nested records are objects
    of their own: the instance holds references to them. *)
Record t := mk {
  _id : number;
  _delta : number;
  _fps : number;
  _actorStats : loc;
  _durationStats : loc }.

Definition with_id (v : number) (o : t) : t :=
  mk v (_delta o) (_fps o) (_actorStats o) (_durationStats o).
Definition with_delta (v : number) (o : t) : t :=
  mk (_id o) v (_fps o) (_actorStats o) (_durationStats o).
Definition with_fps (v : number) (o : t) : t :=
  mk (_id o) (_delta o) v (_actorStats o) (_durationStats o).

(** The heap: the instances of the class and the nested records. *)
Record Heap := mkHeap {
  frames : gmap loc t;
  actorRecs : gmap loc ActorStats.t;
  durationRecs : gmap loc DurationStats.t }.

Definition empty_heap : Heap := mkHeap ∅ ∅ ∅.

Definition upd_frames (f : gmap loc t → gmap loc t) (h : Heap) : Heap :=
  mkHeap (f (frames h)) (actorRecs h) (durationRecs h).
Definition upd_actorRecs
    (f : gmap loc ActorStats.t → gmap loc ActorStats.t) (h : Heap) : Heap :=
  mkHeap (frames h) (f (actorRecs h)) (durationRecs h).
Definition upd_durationRecs
    (f : gmap loc DurationStats.t → gmap loc DurationStats.t) (h : Heap) : Heap :=
  mkHeap (frames h) (actorRecs h) (f (durationRecs h)).

(** *** Accessors of the class (lines 180-233) *)

Definition get_id (this : loc) (h : Heap) : option number :=
  _id <$> frames h !! this.
Definition get_delta (this : loc) (h : Heap) : option number :=
  _delta <$> frames h !! this.
Definition get_fps (this : loc) (h : Heap) : option number :=
  _fps <$> frames h !! this.

Definition set_id (this : loc) (value : number) (h : Heap) : option Heap :=
  o ← frames h !! this; Some (upd_frames <[this := with_id value o]> h).
Definition set_delta (this : loc) (value : number) (h : Heap) : option Heap :=
  o ← frames h !! this; Some (upd_frames <[this := with_delta value o]> h).
Definition set_fps (this : loc) (value : number) (h : Heap) : option Heap :=
  o ← frames h !! this; Some (upd_frames <[this := with_fps value o]> h).

(** [get actors() { return this._actorStats; }] returns the reference. *)
Definition get_actors (this : loc) (h : Heap) : option loc :=
  _actorStats <$> frames h !! this.
(** [get duration() { return this._durationStats; }] *)
Definition get_duration (this : loc) (h : Heap) : option loc :=
  _durationStats <$> frames h !! this.

(** *** Property reads and writes on the nested records *)

Definition actor_get (f : ActorStats.t → number) (a : loc) (h : Heap)
    : option number :=
  f <$> actorRecs h !! a.
Definition actor_set (f : number → ActorStats.t → ActorStats.t)
    (a : loc) (v : number) (h : Heap) : option Heap :=
  r ← actorRecs h !! a; Some (upd_actorRecs <[a := f v r]> h).

Definition duration_get (f : DurationStats.t → number) (d : loc) (h : Heap)
    : option number :=
  f <$> durationRecs h !! d.
Definition duration_set (f : number → DurationStats.t → DurationStats.t)
    (d : loc) (v : number) (h : Heap) : option Heap :=
  r ← durationRecs h !! d; Some (upd_durationRecs <[d := f v r]> h).

(** *** [new FrameStats()]

    The field initialisers (lines 122-142) allocate the two object literals
    and the instance; every stored field starts at 0. *)
Definition new_FrameStats (h : Heap) : Heap * loc :=
  let a := fresh (dom (actorRecs h)) in
  let d := fresh (dom (durationRecs h)) in
  let this := fresh (dom (frames h)) in
  (mkHeap (<[this := mk 0 0 0 a d]> (frames h))
          (<[a := ActorStats.mk 0 0 0]> (actorRecs h))
          (<[d := DurationStats.mk 0 0]> (durationRecs h)),
   this).

(** *** The argument of [reset]

    [otherStats?: IFrameStats] is either an instance of the class, read
    through its getters, or some other object that has the properties of
    the interface. *)
Inductive IFrameStatsRef :=
  | Instance (l : loc)
  | Literal (o : IFrameStats).

Definition other_id (other : IFrameStatsRef) (h : Heap) : option number :=
  match other with
  | Instance l => get_id l h
  | Literal o => Some (id o)
  end.
Definition other_delta (other : IFrameStatsRef) (h : Heap) : option number :=
  match other with
  | Instance l => get_delta l h
  | Literal o => Some (delta o)
  end.
Definition other_fps (other : IFrameStatsRef) (h : Heap) : option number :=
  match other with
  | Instance l => get_fps l h
  | Literal o => Some (fps o)
  end.
(** [otherStats.actors.f] *)
Definition other_actors (f : ActorStats.t → number)
    (g : IFrameActorStats.t → number)
    (other : IFrameStatsRef) (h : Heap) : option number :=
  match other with
  | Instance l => a ← get_actors l h; actor_get f a h
  | Literal o => Some (g (actors o))
  end.
(** [otherStats.duration.f] *)
Definition other_duration (f : DurationStats.t → number)
    (g : IFrameDurationStats.t → number)
    (other : IFrameStatsRef) (h : Heap) : option number :=
  match other with
  | Instance l => d ← get_duration l h; duration_get f d h
  | Literal o => Some (g (duration o))
  end.

(** *** [reset(otherStats?)] (lines 149-164)

    An object is truthy, so [if (otherStats)] tests the presence of the
    argument.  The statements run in source order; a chained assignment
    [a = b = c = 0] stores right to left. *)
Definition reset (this : loc) (otherStats : option IFrameStatsRef) (h : Heap)
    : option Heap :=
  match otherStats with
  | Some other =>
      v ← other_id other h; h ← set_id this v h;
      v ← other_delta other h; h ← set_delta this v h;
      v ← other_fps other h; h ← set_fps this v h;
      a ← get_actors this h;
      v ← other_actors ActorStats.alive IFrameActorStats.alive other h;
      h ← actor_set ActorStats.with_alive a v h;
      a ← get_actors this h;
      v ← other_actors ActorStats.killed IFrameActorStats.killed other h;
      h ← actor_set ActorStats.with_killed a v h;
      a ← get_actors this h;
      v ← other_actors ActorStats.ui IFrameActorStats.ui other h;
      h ← actor_set ActorStats.with_ui a v h;
      d ← get_duration this h;
      v ← other_duration DurationStats.update IFrameDurationStats.update other h;
      h ← duration_set DurationStats.with_update d v h;
      d ← get_duration this h;
      v ← other_duration DurationStats.draw IFrameDurationStats.draw other h;
      duration_set DurationStats.with_draw d v h
  | None =>
      h ← set_fps this 0 h; h ← set_delta this 0 h; h ← set_id this 0 h;
      a1 ← get_actors this h; a2 ← get_actors this h; a3 ← get_actors this h;
      h ← actor_set ActorStats.with_ui a3 0 h;
      h ← actor_set ActorStats.with_killed a2 0 h;
      h ← actor_set ActorStats.with_alive a1 0 h;
      d1 ← get_duration this h; d2 ← get_duration this h;
      h ← duration_set DurationStats.with_draw d2 0 h;
      duration_set DurationStats.with_update d1 0 h
  end.

(** *** [clone()] (lines 169-175) *)
Definition clone (this : loc) (h : Heap) : option (Heap * loc) :=
  let '(h, fs) := new_FrameStats h in
  h ← reset fs (Some (Instance this)) h;
  Some (h, fs).

(** *** Reading an instance through its public interface

    What a caller observes of [this]: the three scalar getters, and the
    properties of [this.actors] and [this.duration], the derived ones
    through the getters of the literals. *)
Definition read_actors (this : loc) (h : Heap) : option IFrameActorStats.t :=
  a ← get_actors this h;
  r ← actorRecs h !! a;
  Some (IFrameActorStats.mk (ActorStats.alive r) (ActorStats.killed r)
          (ActorStats.remaining r) (ActorStats.ui r) (ActorStats.total r)).

Definition read_duration (this : loc) (h : Heap)
    : option IFrameDurationStats.t :=
  d ← get_duration this h;
  r ← durationRecs h !! d;
  Some (IFrameDurationStats.mk (DurationStats.update r) (DurationStats.draw r)
          (DurationStats.total r)).

Definition observe (this : loc) (h : Heap) : option IFrameStats :=
  i ← get_id this h; dl ← get_delta this h; f ← get_fps this h;
  d ← read_duration this h; a ← read_actors this h;
  Some (mkIFrameStats i dl f d a).

(** *** Programs over the class

    The operations a caller has: construction, [reset], [clone], the three
    setters, and assignments to the stored properties of [x.actors] and
    [x.duration]. *)
Inductive op :=
  | New
  | Reset (this : loc) (otherStats : option IFrameStatsRef)
  | Clone (this : loc)
  | SetId (this : loc) (v : number)
  | SetDelta (this : loc) (v : number)
  | SetFps (this : loc) (v : number)
  | SetAlive (this : loc) (v : number)
  | SetKilled (this : loc) (v : number)
  | SetUi (this : loc) (v : number)
  | SetUpdate (this : loc) (v : number)
  | SetDraw (this : loc) (v : number).

Definition exec (o : op) (h : Heap) : option Heap :=
  match o with
  | New => Some (fst (new_FrameStats h))
  | Reset this other => reset this other h
  | Clone this => fst <$> clone this h
  | SetId this v => set_id this v h
  | SetDelta this v => set_delta this v h
  | SetFps this v => set_fps this v h
  | SetAlive this v =>
      a ← get_actors this h; actor_set ActorStats.with_alive a v h
  | SetKilled this v =>
      a ← get_actors this h; actor_set ActorStats.with_killed a v h
  | SetUi this v =>
      a ← get_actors this h; actor_set ActorStats.with_ui a v h
  | SetUpdate this v =>
      d ← get_duration this h; duration_set DurationStats.with_update d v h
  | SetDraw this v =>
      d ← get_duration this h; duration_set DurationStats.with_draw d v h
  end.

Fixpoint run (os : list op) (h : Heap) : option Heap :=
  match os with
  | [] => Some h
  | o :: os => h ← exec o h; run os h
  end.

(** The instance an operation writes to, if any: [New] and [Clone] only
    allocate. *)
Definition target (o : op) : option loc :=
  match o with
  | New | Clone _ => None
  | Reset this _ | SetId this _ | SetDelta this _ | SetFps this _
  | SetAlive this _ | SetKilled this _ | SetUi this _
  | SetUpdate this _ | SetDraw this _ => Some this
  end.

(** *** Well-formed heaps

    Every instance's nested records exist, and no two instances share one:
    [_actorStats] and [_durationStats] are private and set once, by the
    field initialisers. *)
Record wf (h : Heap) : Prop := mkWf {
  wf_actors : ∀ l o, frames h !! l = Some o →
    is_Some (actorRecs h !! _actorStats o);
  wf_durations : ∀ l o, frames h !! l = Some o →
    is_Some (durationRecs h !! _durationStats o);
  wf_actors_own : ∀ l1 l2 o1 o2,
    frames h !! l1 = Some o1 → frames h !! l2 = Some o2 →
    _actorStats o1 = _actorStats o2 → l1 = l2;
  wf_durations_own : ∀ l1 l2 o1 o2,
    frames h !! l1 = Some o1 → frames h !! l2 = Some o2 →
    _durationStats o1 = _durationStats o2 → l1 = l2 }.

(** [this] is an instance of the class in [h]. *)
Definition is_instance (this : loc) (h : Heap) : Prop :=
  is_Some (frames h !! this).

(** The eight base fields an [IFrameStats] argument offers to [reset]. *)
Definition base_fields (o : IFrameStats) : list number :=
  [ id o; delta o; fps o;
    IFrameActorStats.alive (actors o); IFrameActorStats.killed (actors o);
    IFrameActorStats.ui (actors o);
    IFrameDurationStats.update (duration o);
    IFrameDurationStats.draw (duration o) ].

(** The three derived properties, as the argument stores or computes them. *)
Definition derived_fields (o : IFrameStats) : list number :=
  [ IFrameActorStats.remaining (actors o); IFrameActorStats.total (actors o);
    IFrameDurationStats.total (duration o) ].

(** The derived properties as the getters of the class compute them from
    the base fields. *)
Definition derived_of_base (o : IFrameStats) : list number :=
  [ IFrameActorStats.alive (actors o) - IFrameActorStats.killed (actors o);
    (IFrameActorStats.alive (actors o) - IFrameActorStats.killed (actors o))
      + IFrameActorStats.ui (actors o);
    IFrameDurationStats.update (duration o)
      + IFrameDurationStats.draw (duration o) ].

End FrameStats.

(** ** The class [Debug] (lines 93-115) *)

Module Debug.
Import FrameStats.

(** The object literal of the [stats] field. *)
Record Stats := mkStats {
  currFrame : loc;
  prevFrame : loc }.

(** An instance: the engine it was built for, and its statistics. *)
Record t (Engine : Type) := mk {
  _engine : Engine;
  stats : Stats }.
Arguments mk {Engine} _engine stats.
Arguments _engine {Engine} t.
Arguments stats {Engine} t.

(** [new Debug(engine)]: the initialiser of [stats] constructs the two
    [FrameStats], [currFrame] first. *)
Definition new_Debug {Engine : Type} (engine : Engine) (h : Heap)
    : Heap * t Engine :=
  let '(h, c) := new_FrameStats h in
  let '(h, p) := new_FrameStats h in
  (h, mk engine (mkStats c p)).

End Debug.

(* ===================================================================== *)
(** * Part II: the [Texture] resource *)
(* ===================================================================== *)

Module Texture.

(** ** Promises

    Modelled from the spec: the [Promise] class (Promises) is not among the
    sources.  A future has the states pending, resolved with a value and
    rejected with an error, and is settled once: resolving or rejecting a
    settled future is a programming error, not a silent no-op. *)
Inductive PromiseState (T : Type) : Type :=
  | Pending
  | Resolved (value : T)
  | Rejected (error : string).
Arguments Pending {T}.
Arguments Resolved {T} value.
Arguments Rejected {T} error.

(** The outcome of a statement: normal completion, or a thrown error. *)
Inductive result (A : Type) : Type :=
  | Ok (a : A)
  | Throw (e : string).
Arguments Ok {A} a.
Arguments Throw {A} e.

Definition resolve {T} (p : PromiseState T) (value : T) : result (PromiseState T) :=
  match p with
  | Pending => Ok (Resolved value)
  | _ => Throw "Cannot resolve a promise that is not pending"
  end.

Definition reject {T} (p : PromiseState T) (error : string) : result (PromiseState T) :=
  match p with
  | Pending => Ok (Rejected error)
  | _ => Throw "Cannot reject a promise that is not pending"
  end.

(** [s.indexOf(sub)]: the first position of [sub] in [s], or -1.  A string
    is a sequence of bytes here: on a path with characters outside ASCII the
    position counts bytes where JavaScript counts UTF-16 units.  Whether
    the result is -1 is the same for an ASCII [sub], and that is all
    [load()] tests. *)
Definition indexOf (s sub : string) : Z :=
  match String.index 0 sub s with
  | Some n => Z.of_nat n
  | None => (-1)%Z
  end.

(** The two [load] listeners that [Texture.load] registers on an image
    element, each closed over the [complete] promise of its call: the one of
    the data-URI branch (lines 65-73) and the one of the fetched branch
    (lines 80-87). *)
Inductive Listener :=
  | InlineOnLoad (complete : loc)
  | FetchedOnLoad (complete : loc).

(** An image element: [new Image()] has no source and no pixels; the
    platform fills in the natural size when the decode completes, and fires
    the [load] event once. *)
Record HTMLImageElement := mkImage {
  src : option string;
  naturalWidth : N;
  naturalHeight : N;
  listeners : list Listener;
  fired : bool }.

Definition new_Image : HTMLImageElement := mkImage None 0 0 [] false.

(** A request started by [super.load()], with the [complete] promise its
    two callbacks are closed over (lines 76-93). *)
Record Request := mkRequest {
  complete : loc;
  settled : bool }.

Section Model.

(** The [ManagedSprite] and [TextureManager] classes (Drawing/Index) are not
    among the sources: the type of a sprite's constructor arguments and the
    state of the manager are parameters. *)
Context {SpriteField TextureManager : Type}.

(** Modelled from the spec: a [ManagedSprite] is built from six arguments,
    each of which may be [null]; the placeholder has all of them [null]. *)
Record ManagedSprite := mkManagedSprite {
  sprite_arg1 : option SpriteField;
  sprite_arg2 : option SpriteField;
  sprite_arg3 : option SpriteField;
  sprite_arg4 : option SpriteField;
  sprite_arg5 : option SpriteField;
  sprite_arg6 : option SpriteField }.

(** [new ManagedSprite(null, null, null, null, null, null)] *)
Definition placeholder : ManagedSprite :=
  mkManagedSprite None None None None None None.

(** The fields of a [Texture]; [data] is the one inherited from [Resource],
    which [getData()] returns.  A field declared without initialiser is
    [undefined] until assigned. *)
Record Texture := mkTexture {
  path : string;
  bustCache : bool;
  data : option string;
  id : option N;
  width : option N;
  height : option N;
  loaded : PromiseState (option loc);
  _isLoaded : bool;
  _sprite : ManagedSprite;
  image : option loc }.

Definition with_data (v : option string) (t : Texture) : Texture :=
  mkTexture (path t) (bustCache t) v (id t) (width t) (height t) (loaded t)
    (_isLoaded t) (_sprite t) (image t).
Definition with_width (v : option N) (t : Texture) : Texture :=
  mkTexture (path t) (bustCache t) (data t) (id t) v (height t) (loaded t)
    (_isLoaded t) (_sprite t) (image t).
Definition with_height (v : option N) (t : Texture) : Texture :=
  mkTexture (path t) (bustCache t) (data t) (id t) (width t) v (loaded t)
    (_isLoaded t) (_sprite t) (image t).
Definition with_loaded (v : PromiseState (option loc)) (t : Texture) : Texture :=
  mkTexture (path t) (bustCache t) (data t) (id t) (width t) (height t) v
    (_isLoaded t) (_sprite t) (image t).
Definition with_isLoaded (v : bool) (t : Texture) : Texture :=
  mkTexture (path t) (bustCache t) (data t) (id t) (width t) (height t)
    (loaded t) v (_sprite t) (image t).
Definition with_sprite (v : ManagedSprite) (t : Texture) : Texture :=
  mkTexture (path t) (bustCache t) (data t) (id t) (width t) (height t)
    (loaded t) (_isLoaded t) v (image t).
Definition with_image (v : option loc) (t : Texture) : Texture :=
  mkTexture (path t) (bustCache t) (data t) (id t) (width t) (height t)
    (loaded t) (_isLoaded t) (_sprite t) v.

(** [loadIntoAtlas(texture)] of the manager: it sees the texture and the
    image elements, updates its own state and returns a sprite. *)
Variable loadIntoAtlas :
  TextureManager → list HTMLImageElement → Texture → TextureManager * ManagedSprite.

(** The state of the program: one texture, the shared static manager, and
    the objects [load] allocates: image elements, the [complete] promise of
    each call, and the requests in flight. *)
Record World := mkWorld {
  this : Texture;
  manager : TextureManager;
  images : list HTMLImageElement;
  promises : list (PromiseState (option loc));
  requests : list Request }.

Definition upd_this (f : Texture → Texture) (w : World) : World :=
  mkWorld (f (this w)) (manager w) (images w) (promises w) (requests w).
Definition upd_manager (m : TextureManager) (w : World) : World :=
  mkWorld (this w) m (images w) (promises w) (requests w).
Definition upd_images
    (f : list HTMLImageElement → list HTMLImageElement) (w : World) : World :=
  mkWorld (this w) (manager w) (f (images w)) (promises w) (requests w).
Definition upd_promises
    (f : list (PromiseState (option loc)) → list (PromiseState (option loc)))
    (w : World) : World :=
  mkWorld (this w) (manager w) (images w) (f (promises w)) (requests w).
Definition upd_requests (f : list Request → list Request) (w : World) : World :=
  mkWorld (this w) (manager w) (images w) (promises w) (f (requests w)).

(** ** Statements: state passing with thrown errors *)

Definition Js (A : Type) : Type := World → result A * World.

#[local] Instance Js_ret : MRet Js := λ A a w, (Ok a, w).
#[local] Instance Js_bind : MBind Js := λ A B f m w,
  match m w with
  | (Ok a, w') => f a w'
  | (Throw e, w') => (Throw e, w')
  end.

Definition get_this : Js Texture := λ w, (Ok (this w), w).
Definition set_this (f : Texture → Texture) : Js unit :=
  λ w, (Ok tt, upd_this f w).

(** [this.image], dereferenced to read a property or call a method of the
    element: a [TypeError] when the field is undefined. *)
Definition this_image : Js (loc * HTMLImageElement) := λ w,
  match image (this w) with
  | Some i =>
      match images w !! i with
      | Some el => (Ok (i, el), w)
      | None => (Throw "TypeError: no such image element", w)
      end
  | None => (Throw "TypeError: this.image is undefined", w)
  end.

(** [new Image()] *)
Definition alloc_Image : Js loc := λ w,
  (Ok (length (images w)), upd_images (λ l, l ++ [new_Image]) w).

(** [new Promise<HTMLImageElement>()] *)
Definition alloc_Promise : Js loc := λ w,
  (Ok (length (promises w)), upd_promises (λ l, l ++ [Pending]) w).

Definition upd_image (i : loc) (f : HTMLImageElement → HTMLImageElement) : Js unit :=
  λ w,
  match images w !! i with
  | Some el => (Ok tt, upd_images <[i := f el]> w)
  | None => (Throw "TypeError: no such image element", w)
  end.

(** [img.addEventListener('load', l)] *)
Definition addEventListener (i : loc) (l : Listener) : Js unit :=
  upd_image i (λ el,
    mkImage (src el) (naturalWidth el) (naturalHeight el) (listeners el ++ [l])
      (fired el)).

(** [img.src = s] *)
Definition set_src (i : loc) (s : string) : Js unit :=
  upd_image i (λ el,
    mkImage (Some s) (naturalWidth el) (naturalHeight el) (listeners el)
      (fired el)).

(** [this.loaded.resolve(v)]; the value is a reference to an image element,
    or [undefined]. *)
Definition resolve_loaded (v : option loc) : Js unit := λ w,
  match resolve (loaded (this w)) v with
  | Ok p => (Ok tt, upd_this (with_loaded p) w)
  | Throw e => (Throw e, w)
  end.

(** [complete.resolve(v)] *)
Definition resolve_complete (c : loc) (v : option loc) : Js unit := λ w,
  match promises w !! c with
  | Some p =>
      match resolve p v with
      | Ok p' => (Ok tt, upd_promises <[c := p']> w)
      | Throw e => (Throw e, w)
      end
  | None => (Throw "TypeError: no such promise", w)
  end.

(** [complete.reject(e)] *)
Definition reject_complete (c : loc) (e : string) : Js unit := λ w,
  match promises w !! c with
  | Some p =>
      match reject p e with
      | Ok p' => (Ok tt, upd_promises <[c := p']> w)
      | Throw e => (Throw e, w)
      end
  | None => (Throw "TypeError: no such promise", w)
  end.

(** [this._sprite = Texture.manager.loadIntoAtlas(this)] *)
Definition sprite_from_atlas : Js unit := λ w,
  let '(m, s) := loadIntoAtlas (manager w) (images w) (this w) in
  (Ok tt, upd_this (with_sprite s) (upd_manager m w)).

(** [super.getData()] *)
Definition getData : Js string := λ w,
  match data (this w) with
  | Some d => (Ok d, w)
  | None => (Throw "no data", w)
  end.

(** ** The constructor (lines 31-48) *)
Definition new_Texture (path : string) (bustCache : option bool)
    (m : TextureManager) : World :=
  mkWorld
    (mkTexture path (default true bustCache) None None None None Pending false
       placeholder None)
    m [] [] [].

(** [isLoaded()] (lines 54-56) *)
Definition isLoaded (w : World) : bool := _isLoaded (this w).

(** [asSprite()] (lines 98-100) *)
Definition asSprite (w : World) : ManagedSprite := _sprite (this w).

(** ** The listeners of [load()] *)

(** Lines 65-73: the [load] listener of the data-URI branch. *)
Definition on_inline_load (complete : loc) : Js unit :=
  img ← this_image; set_this (with_width (Some (naturalWidth img.2)));;
  img ← this_image; set_this (with_height (Some (naturalHeight img.2)));;
  sprite_from_atlas;;
  t ← get_this; resolve_loaded (image t);;
  t ← get_this; resolve_complete complete (image t).

(** Lines 80-87: the [load] listener of the fetched branch. *)
Definition on_fetched_load (complete : loc) : Js unit :=
  set_this (with_isLoaded true);;
  img ← this_image; set_this (with_width (Some (naturalWidth img.2)));;
  img ← this_image; set_this (with_height (Some (naturalHeight img.2)));;
  t ← get_this; resolve_loaded (image t);;
  t ← get_this; resolve_complete complete (image t).

(** Lines 78-89: the success callback of the fetch. *)
Definition on_fetch_success (complete : loc) : Js unit :=
  i ← alloc_Image; set_this (with_image (Some i));;
  img ← this_image; addEventListener img.1 (FetchedOnLoad complete);;
  img ← this_image; d ← getData; set_src img.1 d.

(** Lines 90-92: the failure callback of the fetch. *)
Definition on_fetch_failure (complete : loc) : Js unit :=
  reject_complete complete "Error loading texture.".

(** Modelled from the spec: [Resource.load()] (Resource) is not among the
    sources.  It starts the fetch of the raw bytes and returns a future of
    the payload; the two callbacks given to [then] run when the fetch has
    succeeded or failed. *)
Definition super_load (complete : loc) : Js unit := λ w,
  (Ok tt, upd_requests (λ l, l ++ [mkRequest complete false]) w).

(** ** [load()] (lines 61-96); the result is the promise [complete]. *)
Definition load : Js loc :=
  complete ← alloc_Promise;
  t ← get_this;
  if (indexOf (path t) "data:image/" >? -1)%Z then
    i ← alloc_Image; set_this (with_image (Some i));;
    img ← this_image; addEventListener img.1 (InlineOnLoad complete);;
    img ← this_image; t ← get_this; set_src img.1 (path t);;
    mret complete
  else
    super_load complete;;
    mret complete.

(** ** Events

    What happens to a texture: a caller invokes [load()]; the fetch of a
    request succeeds with a payload or fails; the platform completes the
    decode of an image element and fires its [load] event, with the natural
    size it found. *)
Inductive event :=
  | Load
  | FetchDone (r : loc) (payload : string)
  | FetchFailed (r : loc)
  | ImageLoad (i : loc) (w h : N).

Definition run_listener (l : Listener) : Js unit :=
  match l with
  | InlineOnLoad c => on_inline_load c
  | FetchedOnLoad c => on_fetched_load c
  end.

(** An error thrown by a listener or callback is reported by the platform
    and does not undo what the listener did before. *)
Definition dispatch (ls : list Listener) (w : World) : World :=
  fold_left (λ w l, (run_listener l w).2) ls w.

Definition settle (r : loc) (w : World) : World :=
  upd_requests (alter (λ q, mkRequest (complete q) true) r) w.

(** One event.  An event whose target does not exist, is already settled
    or has already fired changes nothing.  Modelled from the spec: a
    successful fetch stores its payload where [getData()] finds it, before
    the success callback runs. *)
Definition step (e : event) (w : World) : World :=
  match e with
  | Load => (load w).2
  | FetchDone r payload =>
      match requests w !! r with
      | Some q =>
          if settled q then w
          else (on_fetch_success (complete q)
                  (upd_this (with_data (Some payload)) (settle r w))).2
      | None => w
      end
  | FetchFailed r =>
      match requests w !! r with
      | Some q =>
          if settled q then w
          else (on_fetch_failure (complete q) (settle r w)).2
      | None => w
      end
  | ImageLoad i nw nh =>
      match images w !! i with
      | Some el =>
          match src el with
          | Some _ =>
              if fired el then w
              else dispatch (listeners el)
                     (upd_images
                        <[i := mkImage (src el) nw nh (listeners el) true]> w)
          | None => w
          end
      | None => w
      end
  end.

Definition run (es : list event) (w : World) : World := fold_left (λ w e, step e w) es w.

End Model.

Arguments ManagedSprite : clear implicits.
Arguments Texture : clear implicits.
Arguments World : clear implicits.

(** The events that come from the platform, not from a caller. *)
Definition platform_event (e : event) : bool :=
  match e with
  | Load => false
  | _ => true
  end.

End Texture.

(* ===================================================================== *)
(** * Properties of [FrameStats] *)
(* ===================================================================== *)

Module FrameStatsFacts.
Import FrameStats.
#[local] Open Scope float_scope.

(** The heap in which the base fields of [this] hold the given values. *)
Definition stored (this : loc) (o : t) (b : IFrameStats) (h : Heap) : Heap :=
  mkHeap
    (<[this := mk (id b) (delta b) (fps b) (_actorStats o) (_durationStats o)]>
       (frames h))
    (<[_actorStats o :=
         ActorStats.mk (IFrameActorStats.alive (actors b))
           (IFrameActorStats.killed (actors b))
           (IFrameActorStats.ui (actors b))]> (actorRecs h))
    (<[_durationStats o :=
         DurationStats.mk (IFrameDurationStats.update (duration b))
           (IFrameDurationStats.draw (duration b))]> (durationRecs h)).

(** What [observe] returns for an instance made of [o], [a] and [d]. *)
Definition view (o : t) (a : ActorStats.t) (d : DurationStats.t) : IFrameStats :=
  mkIFrameStats (_id o) (_delta o) (_fps o)
    (IFrameDurationStats.mk (DurationStats.update d) (DurationStats.draw d)
       (DurationStats.total d))
    (IFrameActorStats.mk (ActorStats.alive a) (ActorStats.killed a)
       (ActorStats.remaining a) (ActorStats.ui a) (ActorStats.total a)).

(** The all-zero statistics. *)
Definition zero_stats : IFrameStats :=
  mkIFrameStats 0 0 0 (IFrameDurationStats.mk 0 0 0)
    (IFrameActorStats.mk 0 0 0 0 0).

Lemma observe_cells this h o a d :
  frames h !! this = Some o →
  actorRecs h !! _actorStats o = Some a →
  durationRecs h !! _durationStats o = Some d →
  observe this h = Some (view o a d).
Proof.
  intros Ho Ha Hd.
  unfold observe, read_duration, read_actors, get_id, get_delta, get_fps,
    get_actors, get_duration.
  rewrite Ho. simpl. rewrite Ha, Hd. reflexivity.
Qed.

Lemma observe_inv this h s :
  observe this h = Some s →
  ∃ o a d, frames h !! this = Some o ∧
    actorRecs h !! _actorStats o = Some a ∧
    durationRecs h !! _durationStats o = Some d ∧ s = view o a d.
Proof.
  unfold observe, read_duration, read_actors, get_id, get_delta, get_fps,
    get_actors, get_duration.
  destruct (frames h !! this) as [o|] eqn:Ho; simpl; [|discriminate].
  destruct (durationRecs h !! _durationStats o) as [d|] eqn:Hd; simpl;
    [|discriminate].
  destruct (actorRecs h !! _actorStats o) as [a|] eqn:Ha; simpl;
    [|discriminate].
  intros [= <-]. eauto 10.
Qed.

Lemma reset_None_stored this h o a d :
  frames h !! this = Some o →
  actorRecs h !! _actorStats o = Some a →
  durationRecs h !! _durationStats o = Some d →
  reset this None h = Some (stored this o zero_stats h).
Proof.
  intros Ho Ha Hd.
  unfold reset, set_fps, set_delta, set_id, get_actors, get_duration,
    actor_set, duration_set, upd_frames, upd_actorRecs, upd_durationRecs.
  simpl. rewrite Ho. simpl.
  repeat (rewrite lookup_insert_eq; simpl).
  rewrite Ha. simpl. repeat (rewrite lookup_insert_eq; simpl).
  rewrite Hd. simpl. repeat (rewrite lookup_insert_eq; simpl).
  rewrite !insert_insert_eq. reflexivity.
Qed.

(** The argument of [reset] as its properties read in [h]. *)
Definition other_view (other : IFrameStatsRef) (h : Heap) : option IFrameStats :=
  match other with
  | Instance l => observe l h
  | Literal o => Some o
  end.

Ltac heap_simpl :=
  repeat first
    [ rewrite lookup_insert_eq
    | rewrite lookup_insert_ne by congruence
    | match goal with H : _ !! _ = Some _ |- _ => rewrite H end
    | progress simpl ].

Lemma reset_Some_stored this other h o a d b :
  frames h !! this = Some o →
  actorRecs h !! _actorStats o = Some a →
  durationRecs h !! _durationStats o = Some d →
  other_view other h = Some b →
  reset this (Some other) h = Some (stored this o b h).
Proof.
  intros Ho Ha Hd Hb.
  unfold reset, other_id, other_delta, other_fps, other_actors,
    other_duration, set_fps, set_delta, set_id, get_id, get_delta, get_fps,
    get_actors, get_duration, actor_get, duration_get,
    actor_set, duration_set, upd_frames, upd_actorRecs, upd_durationRecs.
  destruct other as [l|lit]; simpl in Hb.
  - apply observe_inv in Hb as (o' & a' & d' & Ho' & Ha' & Hd' & ->).
    destruct (decide (this = l)) as [->|Hne].
    + assert (o' = o) as -> by congruence.
      assert (a' = a) as -> by congruence.
      assert (d' = d) as -> by congruence.
      heap_simpl. rewrite !insert_insert_eq. reflexivity.
    + destruct o as [i dl f la ld], o' as [i' dl' f' la' ld']; simpl in *.
      destruct (decide (la = la')) as [<-|Ea];
        [assert (a' = a) as -> by congruence|];
      (destruct (decide (ld = ld')) as [<-|Ed];
        [assert (d' = d) as -> by congruence|]).
      all: heap_simpl; rewrite !insert_insert_eq; reflexivity.
  - injection Hb as ->. heap_simpl. rewrite !insert_insert_eq. reflexivity.
Qed.

(** [b] with its derived properties recomputed from its base fields, the
    way the getters of the class do. *)
Definition recomputed (b : IFrameStats) : IFrameStats :=
  mkIFrameStats (id b) (delta b) (fps b)
    (IFrameDurationStats.mk (IFrameDurationStats.update (duration b))
       (IFrameDurationStats.draw (duration b))
       (IFrameDurationStats.update (duration b)
        + IFrameDurationStats.draw (duration b)))
    (IFrameActorStats.mk (IFrameActorStats.alive (actors b))
       (IFrameActorStats.killed (actors b))
       (IFrameActorStats.alive (actors b) - IFrameActorStats.killed (actors b))
       (IFrameActorStats.ui (actors b))
       ((IFrameActorStats.alive (actors b) - IFrameActorStats.killed (actors b))
        + IFrameActorStats.ui (actors b))).

Lemma recomputed_view o a d : recomputed (view o a d) = view o a d.
Proof. reflexivity. Qed.

Lemma observe_recomputed this h s : observe this h = Some s → recomputed s = s.
Proof.
  intros H. apply observe_inv in H as (o & a & d & _ & _ & _ & ->).
  apply recomputed_view.
Qed.

(** *** The heap after a write of the base fields *)

Lemma stored_base_only this o b1 b2 h :
  base_fields b1 = base_fields b2 → stored this o b1 h = stored this o b2 h.
Proof.
  destruct b1 as [i1 dl1 f1 [up1 dr1 dt1] [al1 k1 r1 u1 t1]].
  destruct b2 as [i2 dl2 f2 [up2 dr2 dt2] [al2 k2 r2 u2 t2]].
  simpl. intros [= -> -> -> -> -> -> -> ->]. reflexivity.
Qed.

Lemma stored_observe_this this o b h :
  observe this (stored this o b h) = Some (recomputed b).
Proof.
  unfold observe, read_duration, read_actors, get_id, get_delta, get_fps,
    get_actors, get_duration, stored.
  heap_simpl. reflexivity.
Qed.

Lemma stored_frames this o b h l ol :
  frames h !! this = Some o →
  frames (stored this o b h) !! l = Some ol →
  ∃ ol0, frames h !! l = Some ol0 ∧ _actorStats ol = _actorStats ol0 ∧
    _durationStats ol = _durationStats ol0.
Proof.
  intros Ho. unfold stored. simpl.
  destruct (decide (this = l)) as [->|Hne].
  - rewrite lookup_insert_eq. intros [= <-]. eauto.
  - rewrite lookup_insert_ne by done. eauto.
Qed.

Lemma stored_wf this o b h :
  wf h → frames h !! this = Some o → wf (stored this o b h).
Proof.
  intros [W1 W2 W3 W4] Ho. split.
  - intros l ol Hl.
    destruct (stored_frames _ _ _ _ _ _ Ho Hl) as (ol0 & Hl0 & -> & _).
    simpl. destruct (decide (_actorStats o = _actorStats ol0)) as [->|Hne].
    + rewrite lookup_insert_eq. eauto.
    + rewrite lookup_insert_ne by done. eauto.
  - intros l ol Hl.
    destruct (stored_frames _ _ _ _ _ _ Ho Hl) as (ol0 & Hl0 & _ & ->).
    simpl. destruct (decide (_durationStats o = _durationStats ol0)) as [->|Hne].
    + rewrite lookup_insert_eq. eauto.
    + rewrite lookup_insert_ne by done. eauto.
  - intros l1 l2 o1 o2 H1 H2.
    destruct (stored_frames _ _ _ _ _ _ Ho H1) as (p1 & Hp1 & -> & _).
    destruct (stored_frames _ _ _ _ _ _ Ho H2) as (p2 & Hp2 & -> & _).
    eauto.
  - intros l1 l2 o1 o2 H1 H2.
    destruct (stored_frames _ _ _ _ _ _ Ho H1) as (p1 & Hp1 & _ & ->).
    destruct (stored_frames _ _ _ _ _ _ Ho H2) as (p2 & Hp2 & _ & ->).
    eauto.
Qed.

(** Writing the base fields of [this] changes what is read of no other
    instance. *)
Lemma stored_observe_other this o b h l :
  wf h → frames h !! this = Some o → l ≠ this →
  observe l (stored this o b h) = observe l h.
Proof.
  intros [W1 W2 W3 W4] Ho Hne.
  unfold observe, read_duration, read_actors, get_id, get_delta, get_fps,
    get_actors, get_duration, stored. simpl.
  rewrite lookup_insert_ne by done.
  destruct (frames h !! l) as [ol|] eqn:Hl; [|reflexivity]. simpl.
  rewrite !lookup_insert_ne; [reflexivity| |].
  - intros E. apply Hne. symmetry. eauto.
  - intros E. apply Hne. symmetry. eauto.
Qed.

Lemma stored_is_instance this o b h l :
  frames h !! this = Some o →
  is_instance l (stored this o b h) ↔ is_instance l h.
Proof.
  intros Ho. unfold is_instance, stored. simpl.
  destruct (decide (this = l)) as [->|Hne].
  - rewrite lookup_insert_eq, Ho. split; eauto.
  - rewrite lookup_insert_ne by done. reflexivity.
Qed.

(** *** Allocation *)

Lemma new_fresh h : frames h !! (new_FrameStats h).2 = None.
Proof. simpl. apply not_elem_of_dom, is_fresh. Qed.

Lemma new_observe_new h :
  observe (new_FrameStats h).2 (new_FrameStats h).1 = Some zero_stats.
Proof.
  unfold observe, read_duration, read_actors, get_id, get_delta, get_fps,
    get_actors, get_duration, new_FrameStats.
  heap_simpl. reflexivity.
Qed.

Lemma new_frames h l ol :
  frames (new_FrameStats h).1 !! l = Some ol →
  (l = (new_FrameStats h).2 ∧
   ol = mk 0 0 0 (fresh (dom (actorRecs h))) (fresh (dom (durationRecs h))))
  ∨ (l ≠ (new_FrameStats h).2 ∧ frames h !! l = Some ol).
Proof.
  simpl. destruct (decide (fresh (dom (frames h)) = l)) as [<-|Hne].
  - rewrite lookup_insert_eq. intros [= <-]. eauto.
  - rewrite lookup_insert_ne by done. eauto.
Qed.

Lemma fresh_actor_cell h l : is_Some (actorRecs h !! l) → fresh (dom (actorRecs h)) ≠ l.
Proof. intros H <-. apply elem_of_dom in H. exact (is_fresh _ H). Qed.

Lemma fresh_duration_cell h l :
  is_Some (durationRecs h !! l) → fresh (dom (durationRecs h)) ≠ l.
Proof. intros H <-. apply elem_of_dom in H. exact (is_fresh _ H). Qed.

Lemma new_wf h : wf h → wf (new_FrameStats h).1.
Proof.
  intros [W1 W2 W3 W4]. split.
  - intros l ol Hl. destruct (new_frames _ _ _ Hl) as [[-> ->]|[Hne Hl0]]; simpl.
    + rewrite lookup_insert_eq. eauto.
    + rewrite lookup_insert_ne by (apply fresh_actor_cell; eauto). eauto.
  - intros l ol Hl. destruct (new_frames _ _ _ Hl) as [[-> ->]|[Hne Hl0]]; simpl.
    + rewrite lookup_insert_eq. eauto.
    + rewrite lookup_insert_ne by (apply fresh_duration_cell; eauto). eauto.
  - intros l1 l2 o1 o2 H1 H2 E.
    destruct (new_frames _ _ _ H1) as [[-> ->]|[N1 P1]];
    destruct (new_frames _ _ _ H2) as [[-> ->]|[N2 P2]]; simpl in E; eauto.
    + exfalso. eapply fresh_actor_cell; eauto.
    + exfalso. eapply fresh_actor_cell; eauto.
  - intros l1 l2 o1 o2 H1 H2 E.
    destruct (new_frames _ _ _ H1) as [[-> ->]|[N1 P1]];
    destruct (new_frames _ _ _ H2) as [[-> ->]|[N2 P2]]; simpl in E; eauto.
    + exfalso. eapply fresh_duration_cell; eauto.
    + exfalso. eapply fresh_duration_cell; eauto.
Qed.

(** Allocation changes what is read of no existing instance. *)
Lemma new_observe_old h l :
  wf h → l ≠ (new_FrameStats h).2 →
  observe l (new_FrameStats h).1 = observe l h.
Proof.
  intros [W1 W2 W3 W4] Hne.
  unfold observe, read_duration, read_actors, get_id, get_delta, get_fps,
    get_actors, get_duration. simpl in *.
  rewrite lookup_insert_ne by done.
  destruct (frames h !! l) as [ol|] eqn:Hl; [|reflexivity]. simpl.
  rewrite !lookup_insert_ne
    by first [apply fresh_duration_cell; eauto | apply fresh_actor_cell; eauto].
  reflexivity.
Qed.

Lemma new_is_instance h l :
  is_instance l h → is_instance l (new_FrameStats h).1 ∧ l ≠ (new_FrameStats h).2.
Proof.
  unfold is_instance. intros H.
  assert (l ≠ (new_FrameStats h).2) as Hne.
  { intros ->. rewrite new_fresh in H. by destruct H. }
  split; [|done]. simpl in *. by rewrite lookup_insert_ne.
Qed.

(** *** Every operation is an allocation or a write of base fields *)

Lemma stored_view this o o' a' d' h :
  _actorStats o' = _actorStats o → _durationStats o' = _durationStats o →
  stored this o (view o' a' d') h
  = mkHeap (<[this := o']> (frames h))
      (<[_actorStats o := a']> (actorRecs h))
      (<[_durationStats o := d']> (durationRecs h)).
Proof. destruct o', a', d'; simpl; intros -> ->; reflexivity. Qed.

Lemma wf_cells h this o :
  wf h → frames h !! this = Some o →
  ∃ a d, actorRecs h !! _actorStats o = Some a ∧
    durationRecs h !! _durationStats o = Some d.
Proof.
  intros [W1 W2 _ _] Ho.
  destruct (W1 _ _ Ho) as [a Ha], (W2 _ _ Ho) as [d Hd]. eauto.
Qed.

Lemma wf_observe h this :
  wf h → is_instance this h → is_Some (observe this h).
Proof.
  intros W [o Ho]. destruct (wf_cells _ _ _ W Ho) as (a & d & Ha & Hd).
  erewrite observe_cells by eauto. eauto.
Qed.

Lemma observe_is_instance h this s :
  observe this h = Some s → is_instance this h.
Proof. intros H. apply observe_inv in H as (o & _ & _ & Ho & _). by exists o. Qed.

Lemma reset_Some_inv this other h h' :
  wf h → reset this (Some other) h = Some h' →
  ∃ o b, frames h !! this = Some o ∧ other_view other h = Some b.
Proof.
  intros W H.
  assert (is_Some (other_view other h)) as [b Hb].
  { destruct other as [l|lit]; simpl; [|eauto].
    destruct (frames h !! l) as [o'|] eqn:Hl.
    - apply wf_observe; [done|by exists o'].
    - unfold reset, other_id, get_id in H. rewrite Hl in H. discriminate. }
  destruct (frames h !! this) as [o|] eqn:Ho; [eauto|].
  exfalso. unfold reset in H.
  destruct (other_id other h); simpl in H; [|discriminate].
  unfold set_id in H. rewrite Ho in H. discriminate.
Qed.

Lemma reset_None_inv this h h' :
  reset this None h = Some h' → is_instance this h.
Proof.
  intros H. destruct (frames h !! this) as [o|] eqn:Ho; [by exists o|].
  unfold reset, set_fps in H. rewrite Ho in H. discriminate.
Qed.

Lemma exec_targeted o h h' this :
  wf h → exec o h = Some h' → target o = Some this →
  ∃ fr b, frames h !! this = Some fr ∧ h' = stored this fr b h.
Proof.
  intros W H T.
  destruct o; simpl in T; try discriminate; injection T as ->; simpl in H.
  1: { destruct otherStats as [other|].
    - destruct (reset_Some_inv _ _ _ _ W H) as (fr & b & Hfr & Hb).
      destruct (wf_cells _ _ _ W Hfr) as (a & d & Ha & Hd).
      erewrite reset_Some_stored in H by eauto. injection H as <-. eauto.
    - destruct (reset_None_inv _ _ _ H) as [fr Hfr].
      destruct (wf_cells _ _ _ W Hfr) as (a & d & Ha & Hd).
      erewrite reset_None_stored in H by eauto. injection H as <-. eauto. }
  all: unfold set_id, set_delta, set_fps, get_actors, get_duration,
         actor_set, duration_set in H.
  all: destruct (frames h !! this) as [fr|] eqn:Hfr; [|discriminate].
  all: destruct (wf_cells _ _ _ W Hfr) as (a & d & Ha & Hd).
  all: simpl in H; rewrite ?Ha, ?Hd in H; simpl in H; injection H as <-.
  all: exists fr.
  1: exists (view (with_id v fr) a d).
  2: exists (view (with_delta v fr) a d).
  3: exists (view (with_fps v fr) a d).
  4: exists (view fr (ActorStats.with_alive v a) d).
  5: exists (view fr (ActorStats.with_killed v a) d).
  6: exists (view fr (ActorStats.with_ui v a) d).
  7: exists (view fr a (DurationStats.with_update v d)).
  8: exists (view fr a (DurationStats.with_draw v d)).
  all: split; [done|]; rewrite stored_view by done.
  all: unfold upd_frames, upd_actorRecs, upd_durationRecs.
  all: f_equal; by rewrite ?insert_id by done.
Qed.

Lemma clone_unfold a h :
  clone a h
  = h2 ← reset (new_FrameStats h).2 (Some (Instance a)) (new_FrameStats h).1;
    Some (h2, (new_FrameStats h).2).
Proof. reflexivity. Qed.

Lemma clone_stored a h s :
  wf h → observe a h = Some s →
  clone a h
  = Some (stored (new_FrameStats h).2
            (mk 0 0 0 (fresh (dom (actorRecs h))) (fresh (dom (durationRecs h))))
            s (new_FrameStats h).1,
          (new_FrameStats h).2).
Proof.
  intros W Hs. rewrite clone_unfold.
  destruct (new_is_instance h a (observe_is_instance _ _ _ Hs)) as [_ Hne].
  erewrite reset_Some_stored; [reflexivity| | | |].
  - simpl. apply lookup_insert_eq.
  - simpl. apply lookup_insert_eq.
  - simpl. apply lookup_insert_eq.
  - unfold other_view. rewrite new_observe_old by done. exact Hs.
Qed.

(** A successful [clone] is an allocation followed by a write of base
    fields to the new instance. *)
Lemma clone_inv a h h' c :
  wf h → clone a h = Some (h', c) →
  c = (new_FrameStats h).2 ∧
  ∃ fr b, frames (new_FrameStats h).1 !! c = Some fr ∧
    h' = stored c fr b (new_FrameStats h).1.
Proof.
  intros W. rewrite clone_unfold.
  destruct (reset _ _ _) as [h2|] eqn:R; [|discriminate].
  intros [= <- <-]. split; [done|].
  destruct (reset_Some_inv _ _ _ _ (new_wf _ W) R) as (fr & b & Hfr & Hb).
  destruct (wf_cells _ _ _ (new_wf _ W) Hfr) as (a0 & d0 & Ha & Hd).
  erewrite reset_Some_stored in R by eauto. injection R as <-. eauto.
Qed.

(** *** Invariants of programs *)

Lemma exec_wf o h h' : wf h → exec o h = Some h' → wf h'.
Proof.
  intros W H. destruct (target o) as [this|] eqn:T.
  - destruct (exec_targeted _ _ _ _ W H T) as (fr & b & Hfr & ->).
    by apply stored_wf.
  - destruct o; try discriminate; simpl in H.
    + injection H as <-. by apply new_wf.
    + destruct (clone this h) as [[h2 c]|] eqn:C; [|discriminate].
      injection H as <-.
      destruct (clone_inv _ _ _ _ W C) as (-> & fr & b & Hfr & ->).
      apply stored_wf; [by apply new_wf|done].
Qed.

Lemma run_wf os h h' : wf h → run os h = Some h' → wf h'.
Proof.
  revert h. induction os as [|o os IH]; intros h W H; simpl in H.
  - by injection H as <-.
  - destruct (exec o h) as [h1|] eqn:E; [|discriminate].
    eapply IH; [|exact H]. eapply exec_wf; eauto.
Qed.

Lemma empty_wf : wf empty_heap.
Proof. split; intros *; simpl; by rewrite lookup_empty. Qed.

(** An operation that does not write to [l] changes nothing that is read
    of [l], and [l] stays an instance. *)
Lemma exec_frame o h h' l :
  wf h → is_instance l h → exec o h = Some h' → target o ≠ Some l →
  observe l h' = observe l h ∧ is_instance l h'.
Proof.
  intros W Hl H T. destruct (target o) as [this|] eqn:Tg.
  - destruct (exec_targeted _ _ _ _ W H Tg) as (fr & b & Hfr & ->).
    split; [|by apply stored_is_instance].
    apply stored_observe_other; [done..|congruence].
  - destruct (new_is_instance _ _ Hl) as [Hl1 Hne].
    destruct o; try discriminate; simpl in H.
    + injection H as <-. split; [|done]. by apply new_observe_old.
    + destruct (clone this h) as [[h2 c]|] eqn:C; [|discriminate].
      injection H as <-.
      destruct (clone_inv _ _ _ _ W C) as (-> & fr & b & Hfr & ->).
      split; [|by apply stored_is_instance].
      rewrite stored_observe_other; [by apply new_observe_old| |done..].
      by apply new_wf.
Qed.

Lemma run_frame os h h' l :
  wf h → is_instance l h → run os h = Some h' →
  Forall (λ o, target o ≠ Some l) os →
  observe l h' = observe l h.
Proof.
  revert h. induction os as [|o os IH]; intros h W Hl H F; simpl in H.
  - by injection H as <-.
  - destruct (exec o h) as [h1|] eqn:E; [|discriminate].
    inversion F as [|? ? T F']; subst.
    destruct (exec_frame _ _ _ _ W Hl E T) as [<- Hl1].
    eapply IH; eauto. eapply exec_wf; eauto.
Qed.


(** *** Sample programs, for the sanity checks below *)

(** Two instances: 0 is fresh, 1 has frame 7 with five actors alive, two
    killed, one UI actor, and 4 + 6 ms of update and draw time. *)
Definition sample_program : list op :=
  [ New; New; SetId 1 7; SetDelta 1 16; SetFps 1 60;
    SetAlive 1 5; SetKilled 1 2; SetUi 1 1; SetUpdate 1 4; SetDraw 1 6 ].

Definition sample_heap : Heap := default empty_heap (run sample_program empty_heap).

Definition sample_stats : IFrameStats :=
  mkIFrameStats 7 16 60 (IFrameDurationStats.mk 4 6 10)
    (IFrameActorStats.mk 5 2 3 1 4).

(** An object of the interface whose stored derived properties disagree
    with its base fields. *)
Definition inconsistent_stats : IFrameStats :=
  mkIFrameStats 7 16 60 (IFrameDurationStats.mk 4 6 99)
    (IFrameActorStats.mk 5 2 100 1 200).

Example sample_run : run sample_program empty_heap = Some sample_heap.
Proof. vm_compute. reflexivity. Qed.

Example sample_observe_1 : observe 1 sample_heap = Some sample_stats.
Proof. vm_compute. reflexivity. Qed.

Example sample_observe_0 : observe 0 sample_heap = Some zero_stats.
Proof. vm_compute. reflexivity. Qed.

Lemma sample_wf : wf sample_heap.
Proof. exact (run_wf _ _ _ empty_wf sample_run). Qed.

(** The getters compute in binary64: a derived property read from a NaN
    base field is NaN, which the comparison of the language does not hold
    equal to itself.  The properties below compare the numbers read by
    identity. *)
Example remaining_of_nan :
  let a := ActorStats.mk nan 2 1 in
  ActorStats.remaining a = nan ∧
  PrimFloat.eqb (ActorStats.remaining a)
    (ActorStats.alive a - ActorStats.killed a) = false.
Proof. split; reflexivity. Qed.

End FrameStatsFacts.


(* ===================================================================== *)
(** * Properties of [Texture] *)
(* ===================================================================== *)

Module TextureFacts.
Import Texture.

(** The test of [load()]: [this.path.indexOf('data:image/') > -1]. *)
Definition is_data_uri (p : string) : bool := (indexOf p "data:image/" >? -1)%Z.

Section Facts.
Context {SpriteField TextureManager : Type}.
Variable loadIntoAtlas :
  TextureManager → list HTMLImageElement → Texture SpriteField →
  TextureManager * ManagedSprite SpriteField.

Abbreviation World := (World SpriteField TextureManager).
Abbreviation Texture := (Texture SpriteField).
Abbreviation Js := (@Js SpriteField TextureManager).

#[local] Existing Instance Js_ret.
#[local] Existing Instance Js_bind.

(** *** A first [load()] of a new texture, step by step *)

(** The texture of a new [Texture(p, b)]. *)
Definition fresh_texture (p : string) (b : option bool) : Texture :=
  mkTexture p (default true b) None None None None Pending false placeholder None.

(** After [load()] on a data URI: one image element, its listener
    registered and its source assigned; the promise 0 is [complete]. *)
Definition inline_started (p : string) (b : option bool) (m : TextureManager)
    : World :=
  mkWorld (with_image (Some 0) (fresh_texture p b)) m
    [mkImage (Some p) 0 0 [InlineOnLoad 0] false] [Pending] [].

(** After [load()] on any other path: one request in flight. *)
Definition fetch_started (p : string) (b : option bool) (m : TextureManager)
    : World :=
  mkWorld (fresh_texture p b) m [] [Pending] [mkRequest 0 false].

(** After the fetch has succeeded with [d]. *)
Definition fetch_succeeded (p : string) (b : option bool) (m : TextureManager)
    (d : string) : World :=
  mkWorld (with_image (Some 0) (with_data (Some d) (fresh_texture p b))) m
    [mkImage (Some d) 0 0 [FetchedOnLoad 0] false] [Pending]
    [mkRequest 0 true].

(** After the fetch has failed. *)
Definition fetch_failed (p : string) (b : option bool) (m : TextureManager)
    : World :=
  mkWorld (fresh_texture p b) m [] [Rejected "Error loading texture."]
    [mkRequest 0 true].

(** The texture as the manager receives it in the listener of the data-URI
    branch: the natural size recorded, nothing else changed. *)
Definition inline_measured (p : string) (b : option bool) (nw nh : N) : Texture :=
  with_height (Some nh) (with_width (Some nw)
    (with_image (Some 0) (fresh_texture p b))).

Lemma load_inline p b m :
  is_data_uri p = true →
  load (new_Texture p b m) = (Ok 0, inline_started p b m).
Proof.
  unfold is_data_uri. intros H.
  unfold load, mbind, Js_bind, mret, Js_ret. simpl. rewrite H. reflexivity.
Qed.

Lemma load_fetched p b m :
  is_data_uri p = false →
  load (new_Texture p b m) = (Ok 0, fetch_started p b m).
Proof.
  unfold is_data_uri. intros H.
  unfold load, mbind, Js_bind, mret, Js_ret. simpl. rewrite H. reflexivity.
Qed.

Lemma step_fetch_done p b m d :
  step loadIntoAtlas (FetchDone 0 d) (fetch_started p b m)
  = fetch_succeeded p b m d.
Proof. reflexivity. Qed.

Lemma step_fetch_failed p b m :
  step loadIntoAtlas (FetchFailed 0) (fetch_started p b m) = fetch_failed p b m.
Proof. reflexivity. Qed.

Lemma step_inline_decoded p b m nw nh :
  step loadIntoAtlas (ImageLoad 0 nw nh) (inline_started p b m)
  = mkWorld
      (with_loaded (Resolved (Some 0))
         (with_sprite
            (loadIntoAtlas m [mkImage (Some p) nw nh [InlineOnLoad 0] true]
               (inline_measured p b nw nh)).2
            (inline_measured p b nw nh)))
      (loadIntoAtlas m [mkImage (Some p) nw nh [InlineOnLoad 0] true]
         (inline_measured p b nw nh)).1
      [mkImage (Some p) nw nh [InlineOnLoad 0] true]
      [Resolved (Some 0)] [].
Proof.
  unfold step, dispatch, run_listener, on_inline_load, sprite_from_atlas,
    mbind, Js_bind, inline_measured, fresh_texture. simpl.
  destruct (loadIntoAtlas _ _ _) as [m' s]. reflexivity.
Qed.

Lemma step_fetched_decoded p b m d nw nh :
  step loadIntoAtlas (ImageLoad 0 nw nh) (fetch_succeeded p b m d)
  = mkWorld
      (with_loaded (Resolved (Some 0))
         (with_height (Some nh) (with_width (Some nw) (with_isLoaded true
            (with_image (Some 0) (with_data (Some d) (fresh_texture p b)))))))
      m [mkImage (Some d) nw nh [FetchedOnLoad 0] true]
      [Resolved (Some 0)] [mkRequest 0 true].
Proof. reflexivity. Qed.

Lemma run_nil (w : World) : run loadIntoAtlas [] w = w.
Proof. reflexivity. Qed.

Lemma run_cons e es (w : World) :
  run loadIntoAtlas (e :: es) w = run loadIntoAtlas es (step loadIntoAtlas e w).
Proof. reflexivity. Qed.

Lemma run_app es1 es2 (w : World) :
  run loadIntoAtlas (es1 ++ es2) w
  = run loadIntoAtlas es2 (run loadIntoAtlas es1 w).
Proof. apply fold_left_app. Qed.

Lemma step_Load (w : World) : step loadIntoAtlas Load w = (load w).2.
Proof. reflexivity. Qed.

(** The two ways a first [load()] goes, with the events that follow. *)
Lemma run_inline p b m es :
  is_data_uri p = true →
  run loadIntoAtlas (Load :: es) (new_Texture p b m)
  = run loadIntoAtlas es (inline_started p b m).
Proof. intros H. by rewrite run_cons, step_Load, load_inline. Qed.

Lemma run_fetched p b m es :
  is_data_uri p = false →
  run loadIntoAtlas (Load :: es) (new_Texture p b m)
  = run loadIntoAtlas es (fetch_started p b m).
Proof. intros H. by rewrite run_cons, step_Load, load_fetched. Qed.

(** *** After a failed fetch nothing is left to happen *)

Lemma fetch_failed_quiescent p b m e :
  platform_event e = true →
  step loadIntoAtlas e (fetch_failed p b m) = fetch_failed p b m.
Proof.
  destruct e as [|r d|r|i nw nh]; simpl; [discriminate|..]; intros _.
  - destruct r as [|r]; reflexivity.
  - destruct r as [|r]; reflexivity.
  - destruct i as [|i]; reflexivity.
Qed.

Lemma fetch_failed_forever p b m es :
  forallb platform_event es = true →
  run loadIntoAtlas es (fetch_failed p b m) = fetch_failed p b m.
Proof.
  induction es as [|e es IH]; intros H; [done|].
  simpl in H. apply andb_prop in H as [He Hes].
  rewrite run_cons, fetch_failed_quiescent by done. by apply IH.
Qed.

(** *** The sprite changes only when [loaded] is settled *)

(** [w'] has the sprite of [w], and [loaded] is pending in [w'] only if it
    was in [w]. *)
Definition no_new_sprite (w w' : World) : Prop :=
  _sprite (this w') = _sprite (this w) ∧
  (loaded (this w') = Pending → loaded (this w) = Pending).

(** Every run of the statement [m] relates its initial and final state by
    [R], whether it completes or throws. *)
Definition keeps {A} (R : World → World → Prop) (m : Js A) : Prop :=
  ∀ w, R w (m w).2.

#[local] Instance no_new_sprite_refl : Reflexive no_new_sprite.
Proof. by intros w. Qed.

#[local] Instance no_new_sprite_trans : Transitive no_new_sprite.
Proof.
  intros w1 w2 w3 [S1 P1] [S2 P2]. split; [congruence|auto].
Qed.

Lemma keeps_bind {A B} R `{!Transitive R} (m : Js A) (f : A → Js B) :
  keeps R m → (∀ a, keeps R (f a)) → keeps R (m ≫= f).
Proof.
  intros Hm Hf w. unfold mbind, Js_bind. specialize (Hm w).
  destruct (m w) as [[a|e] w1]; simpl in *; [|done].
  etransitivity; [exact Hm|apply Hf].
Qed.

Lemma keeps_ret {A} R `{!Reflexive R} (a : A) : keeps R (mret a : Js A).
Proof. intros w. simpl. reflexivity. Qed.

(** A statement that leaves the fields of the texture alone. *)
Definition frames_this {A} (m : Js A) : Prop := ∀ w, this (m w).2 = this w.

Lemma frames_this_keeps {A} (m : Js A) : frames_this m → keeps no_new_sprite m.
Proof. intros H w. unfold no_new_sprite. by rewrite H. Qed.

Lemma this_image_frames : frames_this this_image.
Proof.
  intros w. unfold this_image.
  destruct (image (this w)) as [i|]; [|done].
  by destruct (images w !! i).
Qed.

Lemma get_this_frames : frames_this get_this.
Proof. by intros w. Qed.

Lemma alloc_Image_frames : frames_this alloc_Image.
Proof. by intros w. Qed.

Lemma alloc_Promise_frames : frames_this alloc_Promise.
Proof. by intros w. Qed.

Lemma upd_image_frames i f : frames_this (upd_image i f).
Proof. intros w. unfold upd_image. by destruct (images w !! i). Qed.

Lemma resolve_complete_frames c v : frames_this (resolve_complete c v).
Proof.
  intros w. unfold resolve_complete.
  destruct (promises w !! c) as [[| |]|]; done.
Qed.

Lemma reject_complete_frames c e : frames_this (reject_complete c e).
Proof.
  intros w. unfold reject_complete.
  destruct (promises w !! c) as [[| |]|]; done.
Qed.

Lemma getData_frames : frames_this getData.
Proof. intros w. unfold getData. by destruct (data (this w)). Qed.

Lemma super_load_frames c : frames_this (super_load c).
Proof. by intros w. Qed.

Lemma resolve_loaded_keeps v : keeps no_new_sprite (resolve_loaded v).
Proof.
  intros w. unfold resolve_loaded, no_new_sprite.
  destruct (loaded (this w)) eqn:E; simpl; rewrite ?E; done.
Qed.

(** The assignments of [load()] and its listeners to fields other than
    [_sprite] and [loaded]. *)
Lemma set_this_keeps f :
  (∀ t, _sprite (f t) = _sprite t ∧ loaded (f t) = loaded t) →
  keeps no_new_sprite (set_this f).
Proof.
  intros H w. unfold no_new_sprite. simpl.
  destruct (H (this w)) as [-> ->]. done.
Qed.

Ltac keeps_step :=
  first
    [ apply keeps_bind; [apply _| |intros ?]
    | apply keeps_ret; apply _
    | apply frames_this_keeps;
      first [ apply this_image_frames | apply get_this_frames
            | apply alloc_Image_frames | apply alloc_Promise_frames
            | apply upd_image_frames | apply resolve_complete_frames
            | apply reject_complete_frames | apply getData_frames
            | apply super_load_frames ]
    | apply resolve_loaded_keeps
    | apply set_this_keeps; intros ?; split; reflexivity ].

Lemma load_keeps : keeps no_new_sprite load.
Proof.
  unfold load. do 2 keeps_step. keeps_step.
  destruct (indexOf _ _ >? -1)%Z;
    unfold addEventListener, set_src; repeat keeps_step.
Qed.

Lemma on_fetch_success_keeps c : keeps no_new_sprite (on_fetch_success c).
Proof.
  unfold on_fetch_success, addEventListener, set_src. repeat keeps_step.
Qed.

Lemma on_fetch_failure_keeps c : keeps no_new_sprite (on_fetch_failure c).
Proof. unfold on_fetch_failure. repeat keeps_step. Qed.

Lemma on_fetched_load_keeps c : keeps no_new_sprite (on_fetched_load c).
Proof. unfold on_fetched_load. repeat keeps_step. Qed.

(** While [loaded] is pending the texture holds the placeholder. *)
Definition pending_placeholder (w : World) : Prop :=
  loaded (this w) = Pending → _sprite (this w) = placeholder.

Lemma no_new_sprite_placeholder w w' :
  no_new_sprite w w' → pending_placeholder w → pending_placeholder w'.
Proof. intros [S P] I H. rewrite S. auto. Qed.

(** The listener of the data-URI branch: once it has replaced the sprite it
    goes on to settle [loaded], or finds it settled. *)
Lemma on_inline_load_settles c w :
  this (on_inline_load loadIntoAtlas c w).2 = this w ∨
  loaded (this (on_inline_load loadIntoAtlas c w).2) ≠ Pending.
Proof.
  unfold on_inline_load, mbind, Js_bind, this_image. simpl.
  destruct (image (this w)) as [i|] eqn:Hi; [|by left].
  destruct (images w !! i) as [el|] eqn:Hel; [|by left].
  simpl. rewrite Hi, Hel. simpl.
  unfold sprite_from_atlas.
  destruct (loadIntoAtlas _ _ _) as [m' s]. simpl.
  unfold resolve_loaded. simpl.
  destruct (loaded (this w)) eqn:Hl; simpl; right.
  - unfold resolve_complete. simpl.
    destruct (promises w !! c) as [[| |]|]; simpl; done.
  - by rewrite Hl.
  - by rewrite Hl.
Qed.

Lemma run_listener_placeholder l w :
  pending_placeholder w →
  pending_placeholder (run_listener loadIntoAtlas l w).2.
Proof.
  intros I. destruct l as [c|c]; simpl.
  - destruct (on_inline_load_settles c w) as [E|N].
    + unfold pending_placeholder. by rewrite E.
    + by intros H.
  - eapply no_new_sprite_placeholder; [apply on_fetched_load_keeps|done].
Qed.

Lemma dispatch_placeholder ls w :
  pending_placeholder w → pending_placeholder (dispatch loadIntoAtlas ls w).
Proof.
  unfold dispatch. revert w. induction ls as [|l ls IH]; intros w I; simpl.
  - done.
  - apply IH. by apply run_listener_placeholder.
Qed.

Lemma step_placeholder e w :
  pending_placeholder w → pending_placeholder (step loadIntoAtlas e w).
Proof.
  intros I. destruct e as [|r d|r|i nw nh]; simpl.
  - eapply no_new_sprite_placeholder; [apply load_keeps|done].
  - destruct (requests w !! r) as [q|]; [|done].
    destruct (settled q); [done|].
    eapply no_new_sprite_placeholder; [apply on_fetch_success_keeps|done].
  - destruct (requests w !! r) as [q|]; [|done].
    destruct (settled q); [done|].
    eapply no_new_sprite_placeholder; [apply on_fetch_failure_keeps|done].
  - destruct (images w !! i) as [el|]; [|done].
    destruct (src el); [|done]. destruct (fired el); [done|].
    by apply dispatch_placeholder.
Qed.

Lemma run_placeholder es w :
  pending_placeholder w → pending_placeholder (run loadIntoAtlas es w).
Proof.
  unfold run. revert w. induction es as [|e es IH]; intros w I; simpl.
  - done.
  - apply IH. by apply step_placeholder.
Qed.

End Facts.

(** *** A manager for the sanity checks

    It records the textures it is given and returns a sprite that carries
    the number of the call and the size of the texture. *)
Definition recording_manager (m : list (Texture N)) (imgs : list HTMLImageElement)
    (t : Texture N) : list (Texture N) * ManagedSprite N :=
  (m ++ [t],
   mkManagedSprite (Some (N.of_nat (length m))) None (Some 0%N) (Some 0%N)
     (width t) (height t)).

Definition inline_path : string := "data:image/png;base64,iVBORw0KGgo=".
Definition remote_path : string := "http://x/missing.png".

(** [new Texture(inline_path)] and [new Texture(remote_path)], with a
    manager that has packed nothing yet. *)
Definition inline_texture : World N (list (Texture N)) :=
  new_Texture inline_path None [].
Definition remote_texture : World N (list (Texture N)) :=
  new_Texture remote_path None [].

Example inline_path_is_data_uri : is_data_uri inline_path = true.
Proof. reflexivity. Qed.

Example remote_path_is_fetched : is_data_uri remote_path = false.
Proof. reflexivity. Qed.

Example data_uri_anywhere_in_path : is_data_uri "x?u=data:image/png" = true.
Proof. reflexivity. Qed.

End TextureFacts.

(* ===================================================================== *)
(** * The claims about [FrameStats] *)
(* ===================================================================== *)

Module FrameStatsClaims.
Import FrameStats FrameStatsFacts.
#[local] Open Scope float_scope.

(** C6.  For a [FrameStats] instance in any state, [reset()] without an
    argument returns and leaves id, delta, fps, actors.alive, actors.killed,
    actors.ui, duration.update and duration.draw at 0; read through the
    getters afterwards, actors.remaining, actors.total and duration.total
    are 0 as well. *)
Theorem C6_reset_zeroes (this : loc) (h : Heap) (s : IFrameStats) :
  observe this h = Some s →
  ∃ h' s', reset this None h = Some h' ∧
    observe this h' = Some s' ∧
    base_fields s' = [0; 0; 0; 0; 0; 0; 0; 0] ∧
    derived_fields s' = [0; 0; 0].
Proof.
  intros Hs. apply observe_inv in Hs as (o & a & d & Ho & Ha & Hd & _).
  exists (stored this o zero_stats h), zero_stats. split.
  - eapply reset_None_stored; eauto.
  - rewrite stored_observe_this. repeat split.
Qed.

Lemma C6_reset_zeroes_witness :
  observe 1 sample_heap = Some sample_stats ∧
  ∃ h' s', reset 1 None sample_heap = Some h' ∧
    observe 1 h' = Some s' ∧
    base_fields s' = [0; 0; 0; 0; 0; 0; 0; 0] ∧
    derived_fields s' = [0; 0; 0].
Proof.
  split; [vm_compute; reflexivity|].
  apply (C6_reset_zeroes 1 sample_heap sample_stats). vm_compute. reflexivity.
Defined.

(** C7, as stated: after [reset(other)] the derived properties of the
    receiver equal those of [other], for every object [other] of the
    interface.  It fails for an object whose stored derived properties
    disagree with its base fields: the receiver reads 3, 4 and 10 where the
    argument reads 100, 200 and 99. *)
Lemma C7_inconsistent_argument :
  ∃ h' s', reset 0 (Some (Literal inconsistent_stats)) sample_heap = Some h' ∧
    observe 0 h' = Some s' ∧
    base_fields s' = base_fields inconsistent_stats ∧
    derived_fields s' = [3; 4; 10] ∧
    derived_fields inconsistent_stats = [100; 200; 99] ∧
    derived_fields s' ≠ derived_fields inconsistent_stats.
Proof.
  eexists _, _. split; [vm_compute; reflexivity|].
  split; [vm_compute; reflexivity|].
  repeat split. discriminate.
Qed.

(** C7, amended.  For every instance [this] and every argument [other] of
    the interface, [reset(other)] returns; afterwards the base fields of the
    receiver equal those of [other], and its derived properties are the
    values recomputed from them (alive - killed, remaining + ui, update +
    draw).  They equal the derived properties of [other] whenever those are
    consistent with its base fields, which is the case for every instance
    of the class.  When [other] is an instance distinct from the receiver it
    is left unchanged, by the reset and by every later write to the
    receiver. *)
Theorem C7_reset_copies_base (this : loc) (other : IFrameStatsRef) (h : Heap)
    (b : IFrameStats) :
  wf h → is_instance this h → other_view other h = Some b →
  ∃ h' s', reset this (Some other) h = Some h' ∧
    observe this h' = Some s' ∧
    base_fields s' = base_fields b ∧
    derived_fields s' = derived_of_base b ∧
    (derived_fields b = derived_of_base b → s' = b) ∧
    (∀ l, other = Instance l → s' = b) ∧
    (∀ l, other = Instance l → l ≠ this →
       observe l h' = Some b ∧
       ∀ os h'', Forall (λ o, target o = Some this) os →
         run os h' = Some h'' → observe l h'' = Some b).
Proof.
  intros W [o Ho] Hb.
  destruct (wf_cells _ _ _ W Ho) as (a & d & Ha & Hd).
  exists (stored this o b h), (recomputed b).
  split; [eapply reset_Some_stored; eauto|].
  split; [apply stored_observe_this|].
  split; [reflexivity|]. split; [reflexivity|].
  split; [|split].
  - destruct b as [i dl f [up dr dt] [al k r u t]]. simpl.
    intros [= -> -> ->]. reflexivity.
  - intros l ->. simpl in Hb. eapply observe_recomputed; eauto.
  - intros l -> Hne. simpl in Hb.
    assert (observe l (stored this o b h) = Some b) as Hl.
    { rewrite stored_observe_other; done. }
    split; [done|]. intros os h'' F R. rewrite <- Hl.
    eapply run_frame; [by apply stored_wf| |exact R|].
    + eapply observe_is_instance; eauto.
    + eapply Forall_impl; [exact F|]. simpl. intros op -> [= E]. by apply Hne.
Qed.

Lemma C7_reset_copies_base_witness :
  ∃ h' s', reset 0 (Some (Instance 1)) sample_heap = Some h' ∧
    observe 0 h' = Some s' ∧
    base_fields s' = base_fields sample_stats ∧
    derived_fields s' = derived_of_base sample_stats ∧
    (derived_fields sample_stats = derived_of_base sample_stats →
     s' = sample_stats) ∧
    (∀ l, Instance 1 = Instance l → s' = sample_stats) ∧
    (∀ l, Instance 1 = Instance l → l ≠ 0%nat →
       observe l h' = Some sample_stats ∧
       ∀ os h'', Forall (λ o, target o = Some 0%nat) os →
         run os h' = Some h'' → observe l h'' = Some sample_stats).
Proof.
  apply (C7_reset_copies_base 0 (Instance 1) sample_heap sample_stats).
  - exact sample_wf.
  - vm_compute. eauto.
  - vm_compute. reflexivity.
Defined.

(** C8.  For every instance [a], [a.clone()] returns a new instance [c],
    distinct from [a] and with nested records of its own, that reads
    exactly as [a] read when it was cloned, base and derived properties
    alike; [a] itself is unchanged.  The two are independent: no sequence
    of operations that writes to the clone only (its nested [actors] and
    [duration] records included) changes what [a] reads, and the other
    way round. *)
Theorem C8_clone_independent (a : loc) (h : Heap) (s : IFrameStats) :
  wf h → observe a h = Some s →
  ∃ h' c, clone a h = Some (h', c) ∧
    c ≠ a ∧ ¬ is_instance c h ∧
    observe c h' = Some s ∧ observe a h' = Some s ∧
    (∀ ra rc, get_actors a h' = Some ra → get_actors c h' = Some rc → ra ≠ rc) ∧
    (∀ ra rc, get_duration a h' = Some ra → get_duration c h' = Some rc →
       ra ≠ rc) ∧
    (∀ os h'', Forall (λ o, target o = Some c) os → run os h' = Some h'' →
       observe a h'' = Some s) ∧
    (∀ os h'', Forall (λ o, target o = Some a) os → run os h' = Some h'' →
       observe c h'' = Some s).
Proof.
  intros W Hs.
  pose proof (observe_is_instance _ _ _ Hs) as Ha.
  destruct (new_is_instance _ _ Ha) as [Ha1 Hne].
  set (c := (new_FrameStats h).2) in *.
  set (h1 := (new_FrameStats h).1) in *.
  set (fr := mk 0 0 0 (fresh (dom (actorRecs h))) (fresh (dom (durationRecs h)))).
  assert (frames h1 !! c = Some fr) as Hc by apply lookup_insert_eq.
  assert (wf h1) as W1 by (by apply new_wf).
  assert (wf (stored c fr s h1)) as W2 by (by apply stored_wf).
  assert (observe c (stored c fr s h1) = Some s) as Oc.
  { rewrite stored_observe_this. f_equal. eapply observe_recomputed; eauto. }
  assert (observe a (stored c fr s h1) = Some s) as Oa.
  { rewrite stored_observe_other by done. subst h1 c.
    by rewrite new_observe_old. }
  exists (stored c fr s h1), c.
  split; [by apply clone_stored|].
  split; [congruence|].
  split; [unfold is_instance; subst c; rewrite new_fresh; by intros [? ?]|].
  split; [done|]. split; [done|].
  destruct Ha as [oa Hoa].
  destruct (wf_cells _ _ _ W Hoa) as (ca & da & Hca & Hda).
  assert (frames (stored c fr s h1) !! a = Some oa) as Hoa'.
  { simpl. by rewrite !lookup_insert_ne by done. }
  assert (frames (stored c fr s h1) !! c
          = Some (mk (id s) (delta s) (fps s) (_actorStats fr) (_durationStats fr)))
    as Hoc' by apply lookup_insert_eq.
  split; [|split; [|split]].
  - unfold get_actors. rewrite Hoa', Hoc'. simpl. intros ? ? [= <-] [= <-] E.
    eapply fresh_actor_cell; [|symmetry; exact E]. eauto.
  - unfold get_duration. rewrite Hoa', Hoc'. simpl. intros ? ? [= <-] [= <-] E.
    eapply fresh_duration_cell; [|symmetry; exact E]. eauto.
  - intros os h'' F R. rewrite <- Oa.
    eapply run_frame; [done|by exists oa|exact R|].
    eapply Forall_impl; [exact F|]. simpl. by intros op -> [= E].
  - intros os h'' F R. rewrite <- Oc.
    eapply run_frame; [done|eapply observe_is_instance; eauto|exact R|].
    eapply Forall_impl; [exact F|]. simpl. intros op -> [= E]. by apply Hne.
Qed.

Lemma C8_clone_independent_witness :
  ∃ h' c, clone 1 sample_heap = Some (h', c) ∧
    c ≠ 1%nat ∧ ¬ is_instance c sample_heap ∧
    observe c h' = Some sample_stats ∧ observe 1 h' = Some sample_stats ∧
    (∀ ra rc, get_actors 1 h' = Some ra → get_actors c h' = Some rc → ra ≠ rc) ∧
    (∀ ra rc, get_duration 1 h' = Some ra → get_duration c h' = Some rc →
       ra ≠ rc) ∧
    (∀ os h'', Forall (λ o, target o = Some c) os → run os h' = Some h'' →
       observe 1 h'' = Some sample_stats) ∧
    (∀ os h'', Forall (λ o, target o = Some 1%nat) os → run os h' = Some h'' →
       observe c h'' = Some sample_stats).
Proof.
  apply (C8_clone_independent 1 sample_heap sample_stats).
  - exact sample_wf.
  - vm_compute. reflexivity.
Defined.

(** C9, as stated: after any sequence of operations,
    actors.remaining === actors.alive - actors.killed and
    actors.total === actors.remaining + actors.ui.  With [===] the
    comparison of the language, this fails where the recomputed value is
    NaN: after alive and killed are both set to Infinity, remaining reads
    Infinity - Infinity, which is NaN and not [===] to itself, and so does
    total. *)
Lemma C9_nan_is_not_strictly_equal :
  ∃ h s,
    run [New; SetAlive 0 infinity; SetKilled 0 infinity] empty_heap = Some h ∧
    observe 0 h = Some s ∧
    IFrameActorStats.remaining (actors s) = nan ∧
    strict_equals (IFrameActorStats.remaining (actors s))
      (IFrameActorStats.alive (actors s) - IFrameActorStats.killed (actors s))
    = false ∧
    strict_equals (IFrameActorStats.total (actors s))
      (IFrameActorStats.remaining (actors s) + IFrameActorStats.ui (actors s))
    = false.
Proof.
  eexists _, _. split; [vm_compute; reflexivity|].
  split; [vm_compute; reflexivity|]. repeat split.
Qed.

(** C9, amended.  After any sequence of constructions, resets, clones and
    setter calls, every instance reads, through its getters, as
    actors.remaining the value of actors.alive - actors.killed, as
    actors.total the value of actors.remaining + actors.ui and as
    duration.total the value of duration.update + duration.draw, on the
    base fields read at the same moment; each [===] comparison holds
    whenever the value compared is not NaN.  The heap cells of an instance
    hold the base fields only, so a derived property has no storage of its
    own: a write to a base field shows in the next read of the derived
    ones. *)
Theorem C9_derived_from_base (os : list op) (h : Heap) (this : loc) :
  run os empty_heap = Some h → is_instance this h →
  ∃ s, observe this h = Some s ∧
    IFrameActorStats.remaining (actors s)
      = IFrameActorStats.alive (actors s) - IFrameActorStats.killed (actors s) ∧
    IFrameActorStats.total (actors s)
      = IFrameActorStats.remaining (actors s) + IFrameActorStats.ui (actors s) ∧
    IFrameDurationStats.total (duration s)
      = IFrameDurationStats.update (duration s)
        + IFrameDurationStats.draw (duration s) ∧
    (is_nan (IFrameActorStats.remaining (actors s)) = false →
     strict_equals (IFrameActorStats.remaining (actors s))
       (IFrameActorStats.alive (actors s) - IFrameActorStats.killed (actors s))
     = true) ∧
    (is_nan (IFrameActorStats.total (actors s)) = false →
     strict_equals (IFrameActorStats.total (actors s))
       (IFrameActorStats.remaining (actors s) + IFrameActorStats.ui (actors s))
     = true) ∧
    (is_nan (IFrameDurationStats.total (duration s)) = false →
     strict_equals (IFrameDurationStats.total (duration s))
       (IFrameDurationStats.update (duration s)
        + IFrameDurationStats.draw (duration s))
     = true) ∧
    ∀ v, ∃ h1 s1, exec (SetAlive this v) h = Some h1 ∧
      observe this h1 = Some s1 ∧
      IFrameActorStats.remaining (actors s1)
        = v - IFrameActorStats.killed (actors s) ∧
      IFrameActorStats.total (actors s1)
        = (v - IFrameActorStats.killed (actors s))
          + IFrameActorStats.ui (actors s).
Proof.
  assert (∀ x : number, is_nan x = false → strict_equals x x = true) as Hnan.
  { intros x. unfold is_nan, strict_equals. by destruct (PrimFloat.eqb x x). }
  intros R [o Ho].
  pose proof (run_wf _ _ _ empty_wf R) as W.
  destruct (wf_cells _ _ _ W Ho) as (a & d & Ha & Hd).
  exists (view o a d). split; [by apply observe_cells|].
  split; [reflexivity|]. split; [reflexivity|]. split; [reflexivity|].
  split; [exact (Hnan _)|]. split; [exact (Hnan _)|]. split; [exact (Hnan _)|].
  intros v.
  exists (upd_actorRecs <[_actorStats o := ActorStats.with_alive v a]> h),
    (view o (ActorStats.with_alive v a) d).
  split; [|split; [|split; reflexivity]].
  - simpl. unfold get_actors, actor_set. rewrite Ho. simpl. by rewrite Ha.
  - apply observe_cells; simpl; [done| |done]. apply lookup_insert_eq.
Qed.

Lemma C9_derived_from_base_witness :
  ∃ s, observe 1 sample_heap = Some s ∧
    IFrameActorStats.remaining (actors s)
      = IFrameActorStats.alive (actors s) - IFrameActorStats.killed (actors s) ∧
    IFrameActorStats.total (actors s)
      = IFrameActorStats.remaining (actors s) + IFrameActorStats.ui (actors s) ∧
    IFrameDurationStats.total (duration s)
      = IFrameDurationStats.update (duration s)
        + IFrameDurationStats.draw (duration s) ∧
    (is_nan (IFrameActorStats.remaining (actors s)) = false →
     strict_equals (IFrameActorStats.remaining (actors s))
       (IFrameActorStats.alive (actors s) - IFrameActorStats.killed (actors s))
     = true) ∧
    (is_nan (IFrameActorStats.total (actors s)) = false →
     strict_equals (IFrameActorStats.total (actors s))
       (IFrameActorStats.remaining (actors s) + IFrameActorStats.ui (actors s))
     = true) ∧
    (is_nan (IFrameDurationStats.total (duration s)) = false →
     strict_equals (IFrameDurationStats.total (duration s))
       (IFrameDurationStats.update (duration s)
        + IFrameDurationStats.draw (duration s))
     = true) ∧
    ∀ v, ∃ h1 s1, exec (SetAlive 1 v) sample_heap = Some h1 ∧
      observe 1 h1 = Some s1 ∧
      IFrameActorStats.remaining (actors s1)
        = v - IFrameActorStats.killed (actors s) ∧
      IFrameActorStats.total (actors s1)
        = (v - IFrameActorStats.killed (actors s))
          + IFrameActorStats.ui (actors s).
Proof.
  apply (C9_derived_from_base sample_program sample_heap 1).
  - vm_compute. reflexivity.
  - vm_compute. eauto.
Defined.

(** C10.  [reset(other)] reads the eight base fields of its argument and
    nothing else: two arguments that agree on id, delta, fps, actors.alive,
    actors.killed, actors.ui, duration.update and duration.draw leave the
    receiver, and the whole heap, in the same state, whatever they store or
    compute as actors.remaining, actors.total and duration.total; the
    receiver then reads the derived properties recomputed from the copied
    base fields. *)
Theorem C10_reset_ignores_derived (this : loc) (other1 other2 : IFrameStatsRef)
    (h : Heap) (b1 b2 : IFrameStats) :
  is_Some (observe this h) →
  other_view other1 h = Some b1 → other_view other2 h = Some b2 →
  base_fields b1 = base_fields b2 →
  ∃ h' s', reset this (Some other1) h = Some h' ∧
    reset this (Some other2) h = Some h' ∧
    observe this h' = Some s' ∧
    base_fields s' = base_fields b1 ∧
    derived_fields s' = derived_of_base b1 ∧
    derived_fields s' = derived_of_base b2.
Proof.
  intros [s Hs] H1 H2 E.
  apply observe_inv in Hs as (o & a & d & Ho & Ha & Hd & _).
  exists (stored this o b1 h), (recomputed b1).
  split; [eapply reset_Some_stored; eauto|].
  split.
  { rewrite (stored_base_only _ _ _ _ _ E). eapply reset_Some_stored; eauto. }
  split; [apply stored_observe_this|].
  split; [reflexivity|]. split; [reflexivity|].
  destruct b1 as [i1 dl1 f1 [up1 dr1 dt1] [al1 k1 r1 u1 t1]].
  destruct b2 as [i2 dl2 f2 [up2 dr2 dt2] [al2 k2 r2 u2 t2]].
  simpl in *. injection E as -> -> -> -> -> -> -> ->. reflexivity.
Qed.

Lemma C10_reset_ignores_derived_witness :
  ∃ h' s', reset 0 (Some (Instance 1)) sample_heap = Some h' ∧
    reset 0 (Some (Literal inconsistent_stats)) sample_heap = Some h' ∧
    observe 0 h' = Some s' ∧
    base_fields s' = base_fields sample_stats ∧
    derived_fields s' = derived_of_base sample_stats ∧
    derived_fields s' = derived_of_base inconsistent_stats.
Proof.
  apply (C10_reset_ignores_derived 0 (Instance 1) (Literal inconsistent_stats)
           sample_heap sample_stats inconsistent_stats).
  - vm_compute. eauto.
  - vm_compute. reflexivity.
  - reflexivity.
  - reflexivity.
Defined.

End FrameStatsClaims.

(* ===================================================================== *)
(** * The claims about [Texture] *)
(* ===================================================================== *)

Module TextureClaims.
Import Texture TextureFacts.

Section Claims.
Context {SpriteField TextureManager : Type}.
Variable loadIntoAtlas :
  TextureManager → list HTMLImageElement → Texture SpriteField →
  TextureManager * ManagedSprite SpriteField.

(** C1.  For a texture built on a data URI, once the image element has
    fired its [load] event inside [load()], [width] and [height] are the
    natural size of the decoded image and [loaded] is resolved with that
    image, as is the future [load()] returned.  [isLoaded()] however still
    returns false: the listener of the data-URI branch never sets
    [_isLoaded], which the listener of the fetched branch does. *)
Theorem C1_inline_decoded_not_marked_loaded (p : string) (b : option bool)
    (m : TextureManager) (nw nh : N) :
  is_data_uri p = true →
  let w := run loadIntoAtlas [Load; ImageLoad 0 nw nh] (new_Texture p b m) in
  isLoaded w = false ∧
  width (this w) = Some nw ∧ height (this w) = Some nh ∧
  image (this w) = Some 0%nat ∧
  images w !! 0%nat = Some (mkImage (Some p) nw nh [InlineOnLoad 0] true) ∧
  loaded (this w) = Resolved (Some 0%nat) ∧
  promises w !! 0%nat = Some (Resolved (Some 0%nat)).
Proof.
  intros H w. subst w.
  rewrite run_inline, run_cons, run_nil, step_inline_decoded by done.
  repeat split.
Qed.

(** C2, amended.  For a texture built on a data URI, the [load] listener
    calls [loadIntoAtlas] of the shared manager, on the texture with its
    natural width and height recorded, and [asSprite()] afterwards returns
    the sprite that call returned: the data-URI branch does not bypass the
    manager. *)
Theorem C2_inline_sprite_from_atlas (p : string) (b : option bool)
    (m : TextureManager) (nw nh : N) :
  is_data_uri p = true →
  let w := run loadIntoAtlas [Load; ImageLoad 0 nw nh] (new_Texture p b m) in
  let call :=
    loadIntoAtlas m [mkImage (Some p) nw nh [InlineOnLoad 0] true]
      (inline_measured p b nw nh) in
  manager w = call.1 ∧ asSprite w = call.2.
Proof.
  intros H w call. subst w call.
  rewrite run_inline, run_cons, run_nil, step_inline_decoded by done.
  split; reflexivity.
Qed.

(** C3, amended.  [load()] of a new texture returns a future.  When the
    decode completes, on either branch, that future and [loaded] are both
    resolved with the decoded image.  When the fetch fails, the returned
    future is rejected with 'Error loading texture.' while [loaded] stays
    pending, whatever the platform does afterwards: it is never
    rejected. *)
Theorem C3_loaded_follows_success_only (p : string) (b : option bool)
    (m : TextureManager) (d : string) (nw nh : N) :
  (load (@new_Texture SpriteField TextureManager p b m)).1 = Ok 0%nat ∧
  if is_data_uri p then
    let w := run loadIntoAtlas [Load; ImageLoad 0 nw nh] (new_Texture p b m) in
    image (this w) = Some 0%nat ∧
    loaded (this w) = Resolved (Some 0%nat) ∧
    promises w !! 0%nat = Some (Resolved (Some 0%nat))
  else
    (let w := run loadIntoAtlas [Load; FetchDone 0 d; ImageLoad 0 nw nh]
                (new_Texture p b m) in
     image (this w) = Some 0%nat ∧
     loaded (this w) = Resolved (Some 0%nat) ∧
     promises w !! 0%nat = Some (Resolved (Some 0%nat))) ∧
    (∀ es, forallb platform_event es = true →
       let w := run loadIntoAtlas ([Load; FetchFailed 0] ++ es)
                  (new_Texture p b m) in
       promises w !! 0%nat = Some (Rejected "Error loading texture.") ∧
       loaded (this w) = Pending).
Proof.
  destruct (is_data_uri p) eqn:H.
  - rewrite load_inline by done. split; [done|].
    rewrite run_inline, run_cons, run_nil, step_inline_decoded by done.
    repeat split.
  - rewrite load_fetched by done. split; [done|]. split.
    + rewrite run_fetched, !run_cons, run_nil by done.
      rewrite step_fetch_done, step_fetched_decoded. repeat split.
    + intros es Hes w. subst w.
      rewrite run_app, run_fetched, run_cons, run_nil by done.
      rewrite step_fetch_failed, fetch_failed_forever by done.
      split; reflexivity.
Qed.

(** C4.  For a texture whose path is not a data URI and whose fetch fails,
    the future returned by [load()] is rejected with the message
    'Error loading texture.'; [isLoaded()] is false, [width] and [height]
    are undefined and the sprite is the placeholder, and they stay so
    whatever the platform does afterwards: the texture is as the
    constructor left it. *)
Theorem C4_failed_fetch (p : string) (b : option bool) (m : TextureManager)
    (es : list event) :
  is_data_uri p = false →
  forallb platform_event es = true →
  (load (@new_Texture SpriteField TextureManager p b m)).1 = Ok 0%nat ∧
  let w := run loadIntoAtlas ([Load; FetchFailed 0] ++ es) (new_Texture p b m) in
  promises w !! 0%nat = Some (Rejected "Error loading texture.") ∧
  isLoaded w = false ∧
  width (this w) = None ∧ height (this w) = None ∧
  asSprite w = placeholder ∧
  this w = this (new_Texture p b m).
Proof.
  intros H Hes. rewrite load_fetched by done. split; [done|].
  intros w. subst w.
  rewrite run_app, run_fetched, run_cons, run_nil by done.
  rewrite step_fetch_failed, fetch_failed_forever by done.
  repeat split.
Qed.

(** C5.  [asSprite()] is a total function of the state of the texture.
    In every state a new texture can reach, through any calls of [load()]
    and any events of the platform, it returns the placeholder sprite of
    the constructor, all six fields null, for as long as [loaded] is
    pending. *)
Theorem C5_placeholder_while_pending (p : string) (b : option bool)
    (m : TextureManager) (es : list event) :
  let w := run loadIntoAtlas es (new_Texture p b m) in
  loaded (this w) = Pending →
  asSprite w = placeholder ∧
  sprite_arg1 (asSprite w) = None ∧ sprite_arg2 (asSprite w) = None ∧
  sprite_arg3 (asSprite w) = None ∧ sprite_arg4 (asSprite w) = None ∧
  sprite_arg5 (asSprite w) = None ∧ sprite_arg6 (asSprite w) = None.
Proof.
  intros w Hp.
  assert (asSprite w = placeholder) as E.
  { apply (run_placeholder loadIntoAtlas es (new_Texture p b m)); [|exact Hp].
    intros _. reflexivity. }
  rewrite E. repeat split.
Qed.

End Claims.

Lemma C1_inline_decoded_not_marked_loaded_witness :
  is_data_uri inline_path = true ∧
  let w := run recording_manager [Load; ImageLoad 0 10 20] inline_texture in
  isLoaded w = false ∧
  width (this w) = Some 10%N ∧ height (this w) = Some 20%N ∧
  image (this w) = Some 0%nat ∧
  images w !! 0%nat
    = Some (mkImage (Some inline_path) 10 20 [InlineOnLoad 0] true) ∧
  loaded (this w) = Resolved (Some 0%nat) ∧
  promises w !! 0%nat = Some (Resolved (Some 0%nat)).
Proof.
  split; [reflexivity|].
  apply (C1_inline_decoded_not_marked_loaded recording_manager
           inline_path None [] 10 20).
  reflexivity.
Defined.

(** C2, as stated: the manager is called on the decode completion of every
    texture, the data-URI branch being the one that goes without.  The code
    has it the other way round.  With a manager that records its calls, a
    data-URI texture is handed to it once and takes the sprite it returns;
    a fetched texture is decoded and resolved without any call, and keeps
    the placeholder. *)
Lemma C2_manager_called_on_inline_branch :
  let inline := run recording_manager [Load; ImageLoad 0 10 20] inline_texture in
  let fetched :=
    run recording_manager [Load; FetchDone 0 "blob:1"; ImageLoad 0 10 20]
      remote_texture in
  (manager inline = [inline_measured inline_path None 10 20] ∧
   manager inline ≠ [] ∧
   asSprite inline
     = mkManagedSprite (Some 0%N) None (Some 0%N) (Some 0%N) (Some 10%N)
         (Some 20%N)) ∧
  (loaded (this fetched) = Resolved (Some 0%nat) ∧
   manager fetched = [] ∧
   asSprite fetched = placeholder).
Proof. vm_compute. repeat split. discriminate. Qed.

Lemma C2_inline_sprite_from_atlas_witness :
  is_data_uri inline_path = true ∧
  let w := run recording_manager [Load; ImageLoad 0 10 20] inline_texture in
  let call :=
    recording_manager []
      [mkImage (Some inline_path) 10 20 [InlineOnLoad 0] true]
      (inline_measured inline_path None 10 20) in
  manager w = call.1 ∧ asSprite w = call.2.
Proof.
  split; [reflexivity|].
  apply (C2_inline_sprite_from_atlas recording_manager inline_path None []
           10 20).
  reflexivity.
Defined.

(** C3, as stated: when [load()] fails, [loaded] and the returned future
    are both rejected.  After a failed fetch the returned future is
    rejected, but [loaded] is still pending. *)
Lemma C3_failed_fetch_leaves_loaded_pending :
  let w := run recording_manager [Load; FetchFailed 0] remote_texture in
  promises w !! 0%nat = Some (Rejected "Error loading texture.") ∧
  loaded (this w) = Pending ∧
  ∀ e, loaded (this w) ≠ Rejected e.
Proof. vm_compute. repeat split. discriminate. Qed.

Lemma C4_failed_fetch_witness :
  let es := [ImageLoad 0 10 20; FetchDone 0 "late"; FetchFailed 0] in
  is_data_uri remote_path = false ∧
  forallb platform_event es = true ∧
  (load remote_texture).1 = Ok 0%nat ∧
  let w := run recording_manager ([Load; FetchFailed 0] ++ es) remote_texture in
  promises w !! 0%nat = Some (Rejected "Error loading texture.") ∧
  isLoaded w = false ∧
  width (this w) = None ∧ height (this w) = None ∧
  asSprite w = placeholder ∧
  this w = this remote_texture.
Proof.
  split; [reflexivity|]. split; [reflexivity|].
  apply (C4_failed_fetch recording_manager remote_path None []
           [ImageLoad 0 10 20; FetchDone 0 "late"; FetchFailed 0]);
    reflexivity.
Defined.

Lemma C5_placeholder_while_pending_witness :
  let w := run recording_manager [Load; FetchDone 0 "blob:1"] remote_texture in
  loaded (this w) = Pending ∧
  asSprite w = placeholder ∧
  sprite_arg1 (asSprite w) = None ∧ sprite_arg2 (asSprite w) = None ∧
  sprite_arg3 (asSprite w) = None ∧ sprite_arg4 (asSprite w) = None ∧
  sprite_arg5 (asSprite w) = None ∧ sprite_arg6 (asSprite w) = None.
Proof.
  split; [reflexivity|].
  apply (C5_placeholder_while_pending recording_manager remote_path None []
           [Load; FetchDone 0 "blob:1"]).
  reflexivity.
Defined.

End TextureClaims.


(* ===================================================================== *)
(** * Further properties of [FrameStats] and [Debug] *)
(* ===================================================================== *)

Module FrameStatsExtras.
Import FrameStats FrameStatsFacts.
#[local] Open Scope float_scope.

Lemma exec_is_instance o h h' l :
  wf h → is_instance l h → exec o h = Some h' → is_instance l h'.
Proof.
  intros W Hl H. destruct (target o) as [this|] eqn:T.
  - destruct (exec_targeted _ _ _ _ W H T) as (fr & b & Hfr & ->).
    by apply stored_is_instance.
  - eapply exec_frame; eauto. rewrite T. discriminate.
Qed.

Lemma run_is_instance os h h' l :
  wf h → is_instance l h → run os h = Some h' → is_instance l h'.
Proof.
  revert h. induction os as [|o os IH]; intros h W Hl H; simpl in H.
  - by injection H as <-.
  - destruct (exec o h) as [h1|] eqn:E; [|discriminate].
    eapply IH; [| |exact H].
    + eapply exec_wf; eauto.
    + eapply exec_is_instance; eauto.
Qed.

Lemma stored_self this o a d h :
  frames h !! this = Some o →
  actorRecs h !! _actorStats o = Some a →
  durationRecs h !! _durationStats o = Some d →
  stored this o (view o a d) h = h.
Proof.
  intros Ho Ha Hd. rewrite stored_view by done.
  rewrite !insert_id by done. by destruct h.
Qed.

Lemma upd_frame_observe this o o' a d h :
  frames h !! this = Some o →
  actorRecs h !! _actorStats o = Some a →
  durationRecs h !! _durationStats o = Some d →
  _actorStats o' = _actorStats o → _durationStats o' = _durationStats o →
  observe this (upd_frames <[this := o']> h) = Some (view o' a d) ∧
  ∀ l, l ≠ this → observe l (upd_frames <[this := o']> h) = observe l h.
Proof.
  intros Ho Ha Hd Ea Ed. split.
  - apply observe_cells; simpl; [apply lookup_insert_eq|congruence..].
  - intros l Hne.
    unfold observe, read_duration, read_actors, get_id, get_delta, get_fps,
      get_actors, get_duration. simpl. by rewrite lookup_insert_ne.
Qed.

(** X1.  The setters of [id], [delta] and [fps] store the value the getter
    then returns; the other two scalars, the actor and duration records of
    the instance, and every other instance read as before. *)
Theorem scalar_setters_round_trip (this : loc) (h : Heap) (s : IFrameStats)
    (v : number) :
  observe this h = Some s →
  (∃ h1, set_id this v h = Some h1 ∧ get_id this h1 = Some v ∧
     observe this h1 = Some (mkIFrameStats v (delta s) (fps s) (duration s) (actors s)) ∧
     ∀ l, l ≠ this → observe l h1 = observe l h) ∧
  (∃ h1, set_delta this v h = Some h1 ∧ get_delta this h1 = Some v ∧
     observe this h1 = Some (mkIFrameStats (id s) v (fps s) (duration s) (actors s)) ∧
     ∀ l, l ≠ this → observe l h1 = observe l h) ∧
  (∃ h1, set_fps this v h = Some h1 ∧ get_fps this h1 = Some v ∧
     observe this h1 = Some (mkIFrameStats (id s) (delta s) v (duration s) (actors s)) ∧
     ∀ l, l ≠ this → observe l h1 = observe l h).
Proof.
  intros Hs. apply observe_inv in Hs as (o & a & d & Ho & Ha & Hd & ->).
  unfold set_id, set_delta, set_fps, get_id, get_delta, get_fps. rewrite Ho.
  simpl.
  split; [|split].
  - destruct (upd_frame_observe this o (with_id v o) a d h) as [E F]; try done.
    eexists. split; [reflexivity|]. simpl. rewrite lookup_insert_eq.
    split; [done|]. split; [exact E|exact F].
  - destruct (upd_frame_observe this o (with_delta v o) a d h) as [E F];
      try done.
    eexists. split; [reflexivity|]. simpl. rewrite lookup_insert_eq.
    split; [done|]. split; [exact E|exact F].
  - destruct (upd_frame_observe this o (with_fps v o) a d h) as [E F]; try done.
    eexists. split; [reflexivity|]. simpl. rewrite lookup_insert_eq.
    split; [done|]. split; [exact E|exact F].
Qed.

Lemma scalar_setters_round_trip_witness :
  (∃ h1, set_id 1 42 sample_heap = Some h1 ∧ get_id 1 h1 = Some 42 ∧
     observe 1 h1 = Some (mkIFrameStats 42 (delta sample_stats)
                            (fps sample_stats) (duration sample_stats)
                            (actors sample_stats)) ∧
     ∀ l, l ≠ 1%nat → observe l h1 = observe l sample_heap) ∧
  (∃ h1, set_delta 1 42 sample_heap = Some h1 ∧ get_delta 1 h1 = Some 42 ∧
     observe 1 h1 = Some (mkIFrameStats (id sample_stats) 42
                            (fps sample_stats) (duration sample_stats)
                            (actors sample_stats)) ∧
     ∀ l, l ≠ 1%nat → observe l h1 = observe l sample_heap) ∧
  (∃ h1, set_fps 1 42 sample_heap = Some h1 ∧ get_fps 1 h1 = Some 42 ∧
     observe 1 h1 = Some (mkIFrameStats (id sample_stats)
                            (delta sample_stats) 42 (duration sample_stats)
                            (actors sample_stats)) ∧
     ∀ l, l ≠ 1%nat → observe l h1 = observe l sample_heap).
Proof.
  apply (scalar_setters_round_trip 1 sample_heap sample_stats 42).
  vm_compute. reflexivity.
Defined.

Lemma exec_targeted_others o h h' this l :
  wf h → exec o h = Some h' → target o = Some this → l ≠ this →
  observe l h' = observe l h.
Proof.
  intros W H T Hne.
  destruct (exec_targeted _ _ _ _ W H T) as (fr & b & Hfr & ->).
  by apply stored_observe_other.
Qed.

Lemma actor_write_observe this o a a' d h :
  frames h !! this = Some o →
  actorRecs h !! _actorStats o = Some a →
  durationRecs h !! _durationStats o = Some d →
  observe this (upd_actorRecs <[_actorStats o := a']> h) = Some (view o a' d).
Proof.
  intros Ho Ha Hd. apply observe_cells; simpl; [done| |done].
  apply lookup_insert_eq.
Qed.

Lemma duration_write_observe this o a d d' h :
  frames h !! this = Some o →
  actorRecs h !! _actorStats o = Some a →
  durationRecs h !! _durationStats o = Some d →
  observe this (upd_durationRecs <[_durationStats o := d']> h)
  = Some (view o a d').
Proof.
  intros Ho Ha Hd. apply observe_cells; simpl; [done|done|].
  apply lookup_insert_eq.
Qed.

Lemma targeted_reads o this h h1 s' :
  wf h → exec o h = Some h1 → target o = Some this →
  observe this h1 = Some s' →
  ∃ h1, exec o h = Some h1 ∧ observe this h1 = Some s' ∧
    ∀ l, l ≠ this → observe l h1 = observe l h.
Proof.
  intros W E T O. exists h1. split; [done|]. split; [done|].
  intros l Hne. eapply exec_targeted_others; eauto.
Qed.

(** X2.  An assignment to a stored property of [x.actors] or [x.duration]
    shows in the next read of that property and of the derived ones computed
    from it (remaining and total of the actors, total of the durations); the
    other record, the scalars and every other instance read as before. *)
Theorem record_writes_show_in_derived (this : loc) (h : Heap) (s : IFrameStats)
    (v : number) :
  wf h → observe this h = Some s →
  let al := IFrameActorStats.alive (actors s) in
  let k := IFrameActorStats.killed (actors s) in
  let u := IFrameActorStats.ui (actors s) in
  let up := IFrameDurationStats.update (duration s) in
  let dr := IFrameDurationStats.draw (duration s) in
  let reads o s' :=
    ∃ h1, exec o h = Some h1 ∧ observe this h1 = Some s' ∧
      ∀ l, l ≠ this → observe l h1 = observe l h in
  reads (SetAlive this v)
    (mkIFrameStats (id s) (delta s) (fps s) (duration s)
       (IFrameActorStats.mk v k (v - k) u ((v - k) + u))) ∧
  reads (SetKilled this v)
    (mkIFrameStats (id s) (delta s) (fps s) (duration s)
       (IFrameActorStats.mk al v (al - v) u ((al - v) + u))) ∧
  reads (SetUi this v)
    (mkIFrameStats (id s) (delta s) (fps s) (duration s)
       (IFrameActorStats.mk al k (al - k) v ((al - k) + v))) ∧
  reads (SetUpdate this v)
    (mkIFrameStats (id s) (delta s) (fps s)
       (IFrameDurationStats.mk v dr (v + dr)) (actors s)) ∧
  reads (SetDraw this v)
    (mkIFrameStats (id s) (delta s) (fps s)
       (IFrameDurationStats.mk up v (up + v)) (actors s)).
Proof.
  intros W Hs. apply observe_inv in Hs as (o & a & d & Ho & Ha & Hd & ->).
  cbv zeta beta. repeat split.
  all: eapply targeted_reads; [done| |reflexivity|].
  all: try (simpl; unfold get_actors, get_duration, actor_set, duration_set;
            rewrite Ho; simpl; rewrite ?Ha, ?Hd; reflexivity).
  1-3: erewrite actor_write_observe by done; reflexivity.
  all: erewrite duration_write_observe by done; reflexivity.
Qed.

Lemma record_writes_show_in_derived_witness :
  let reads o s' :=
    ∃ h1, exec o sample_heap = Some h1 ∧ observe 1 h1 = Some s' ∧
      ∀ l, l ≠ 1%nat → observe l h1 = observe l sample_heap in
  reads (SetAlive 1 9)
    (mkIFrameStats 7 16 60 (IFrameDurationStats.mk 4 6 10)
       (IFrameActorStats.mk 9 2 (9 - 2) 1 ((9 - 2) + 1))) ∧
  reads (SetKilled 1 9)
    (mkIFrameStats 7 16 60 (IFrameDurationStats.mk 4 6 10)
       (IFrameActorStats.mk 5 9 (5 - 9) 1 ((5 - 9) + 1))) ∧
  reads (SetUi 1 9)
    (mkIFrameStats 7 16 60 (IFrameDurationStats.mk 4 6 10)
       (IFrameActorStats.mk 5 2 (5 - 2) 9 ((5 - 2) + 9))) ∧
  reads (SetUpdate 1 9)
    (mkIFrameStats 7 16 60 (IFrameDurationStats.mk 9 6 (9 + 6))
       (IFrameActorStats.mk 5 2 3 1 4)) ∧
  reads (SetDraw 1 9)
    (mkIFrameStats 7 16 60 (IFrameDurationStats.mk 4 9 (4 + 9))
       (IFrameActorStats.mk 5 2 3 1 4)).
Proof.
  apply (record_writes_show_in_derived 1 sample_heap sample_stats 9).
  - exact sample_wf.
  - vm_compute. reflexivity.
Defined.

Lemma stored_dom this o b h :
  frames h !! this = Some o →
  actorRecs h !! _actorStats o ≠ None →
  durationRecs h !! _durationStats o ≠ None →
  dom (frames (stored this o b h)) = dom (frames h) ∧
  dom (actorRecs (stored this o b h)) = dom (actorRecs h) ∧
  dom (durationRecs (stored this o b h)) = dom (durationRecs h).
Proof.
  intros Ho Ha Hd. simpl. rewrite !dom_insert_L.
  assert (this ∈ dom (frames h)) as I1 by (apply elem_of_dom; eauto).
  assert (_actorStats o ∈ dom (actorRecs h)) as I2
    by (apply elem_of_dom; by destruct (actorRecs h !! _actorStats o)).
  assert (_durationStats o ∈ dom (durationRecs h)) as I3
    by (apply elem_of_dom; by destruct (durationRecs h !! _durationStats o)).
  repeat split; apply subseteq_union_1_L; by apply singleton_subseteq_l.
Qed.

Lemma stored_nested this o b h l :
  frames h !! this = Some o →
  get_actors l (stored this o b h) = get_actors l h ∧
  get_duration l (stored this o b h) = get_duration l h.
Proof.
  intros Ho. unfold get_actors, get_duration. simpl.
  destruct (decide (this = l)) as [->|Hne].
  - by rewrite lookup_insert_eq, Ho.
  - by rewrite lookup_insert_ne.
Qed.

(** X3.  [reset], with or without an argument, works in place: it
    allocates nothing (the heap has the same instances and the same
    records afterwards), and the [actors] and [duration] getters of every
    instance, the receiver included, return the same record objects as
    before.  A reference to [x.actors] taken before a reset sees the values
    the reset wrote. *)
Theorem reset_in_place (this : loc) (other : option IFrameStatsRef)
    (h h' : Heap) :
  wf h → reset this other h = Some h' →
  dom (frames h') = dom (frames h) ∧
  dom (actorRecs h') = dom (actorRecs h) ∧
  dom (durationRecs h') = dom (durationRecs h) ∧
  (∀ l, get_actors l h' = get_actors l h ∧
        get_duration l h' = get_duration l h) ∧
  (∀ a s', get_actors this h = Some a → observe this h' = Some s' →
     actor_get ActorStats.alive a h' = Some (IFrameActorStats.alive (actors s')) ∧
     actor_get ActorStats.killed a h' = Some (IFrameActorStats.killed (actors s')) ∧
     actor_get ActorStats.ui a h' = Some (IFrameActorStats.ui (actors s'))).
Proof.
  intros W H.
  destruct (exec_targeted (Reset this other) h h' this W H eq_refl)
    as (fr & b & Hfr & ->).
  destruct (wf_cells _ _ _ W Hfr) as (a & d & Ha & Hd).
  destruct (stored_dom this fr b h) as (D1 & D2 & D3); [done|congruence..|].
  split; [done|]. split; [done|]. split; [done|].
  split; [intros l; by apply stored_nested|].
  intros a0 s'. unfold get_actors. rewrite Hfr. intros [= <-].
  rewrite stored_observe_this. intros [= <-].
  unfold actor_get. simpl. rewrite lookup_insert_eq. done.
Qed.

Lemma reset_in_place_witness :
  ∃ h', reset 0 (Some (Instance 1)) sample_heap = Some h' ∧
  dom (frames h') = dom (frames sample_heap) ∧
  dom (actorRecs h') = dom (actorRecs sample_heap) ∧
  dom (durationRecs h') = dom (durationRecs sample_heap) ∧
  (∀ l, get_actors l h' = get_actors l sample_heap ∧
        get_duration l h' = get_duration l sample_heap) ∧
  (∀ a s', get_actors 0 sample_heap = Some a → observe 0 h' = Some s' →
     actor_get ActorStats.alive a h' = Some (IFrameActorStats.alive (actors s')) ∧
     actor_get ActorStats.killed a h' = Some (IFrameActorStats.killed (actors s')) ∧
     actor_get ActorStats.ui a h' = Some (IFrameActorStats.ui (actors s'))).
Proof.
  eexists. split; [vm_compute; reflexivity|].
  apply (reset_in_place 0 (Some (Instance 1)) sample_heap).
  - exact sample_wf.
  - vm_compute. reflexivity.
Defined.

(** X4.  [x.reset(x)] changes nothing: resetting an instance from itself
    returns and leaves the whole heap as it was. *)
Theorem reset_from_itself (this : loc) (h : Heap) (s : IFrameStats) :
  observe this h = Some s →
  reset this (Some (Instance this)) h = Some h.
Proof.
  intros Hs. pose proof Hs as Hs'.
  apply observe_inv in Hs' as (o & a & d & Ho & Ha & Hd & ->).
  erewrite reset_Some_stored by eauto. f_equal. by apply stored_self.
Qed.

Lemma reset_from_itself_witness :
  observe 1 sample_heap = Some sample_stats ∧
  reset 1 (Some (Instance 1)) sample_heap = Some sample_heap.
Proof.
  split; [vm_compute; reflexivity|].
  apply (reset_from_itself 1 sample_heap sample_stats).
  vm_compute. reflexivity.
Defined.

Lemma stored_stored this o o' b h :
  _actorStats o' = _actorStats o → _durationStats o' = _durationStats o →
  stored this o' b (stored this o b h) = stored this o b h.
Proof.
  intros Ea Ed. unfold stored. simpl. rewrite Ea, Ed.
  by rewrite !insert_insert_eq.
Qed.

(** X5.  [reset] is idempotent: a second [reset()], or a second
    [reset(other)] with the same argument, returns and changes nothing
    more. *)
Theorem reset_idempotent (this : loc) (other : option IFrameStatsRef)
    (h h' : Heap) :
  wf h → reset this other h = Some h' → reset this other h' = Some h'.
Proof.
  intros W H.
  destruct (exec_targeted (Reset this other) h h' this W H eq_refl)
    as (fr & b & Hfr & E).
  destruct (wf_cells _ _ _ W Hfr) as (a & d & Ha & Hd).
  set (fr' := mk (id b) (delta b) (fps b) (_actorStats fr) (_durationStats fr)).
  assert (frames h' !! this = Some fr') as Hfr'
    by (subst h'; apply lookup_insert_eq).
  assert (is_Some (actorRecs h' !! _actorStats fr') ∧
          is_Some (durationRecs h' !! _durationStats fr')) as [[a' Ha'] [d' Hd']].
  { subst h'. simpl. rewrite !lookup_insert_eq. eauto. }
  destruct other as [other|].
  - destruct (reset_Some_inv _ _ _ _ W H) as (fr0 & b0 & Hfr0 & Hb0).
    assert (fr0 = fr) as -> by congruence.
    erewrite reset_Some_stored in H by eauto. injection H as H.
    assert (other_view other h' = Some b0) as Hv.
    { destruct other as [l|lit]; simpl in *; [|done].
      rewrite <- H. destruct (decide (l = this)) as [->|Hne].
      - rewrite stored_observe_this. f_equal. eapply observe_recomputed; eauto.
      - by rewrite stored_observe_other. }
    erewrite reset_Some_stored by eauto. f_equal.
    rewrite <- H at 1. rewrite stored_stored by done. done.
  - erewrite reset_None_stored in H by eauto. injection H as H.
    erewrite reset_None_stored by eauto. f_equal.
    rewrite <- H at 1. rewrite stored_stored by done. done.
Qed.

Lemma reset_idempotent_witness :
  ∃ h', reset 0 (Some (Instance 1)) sample_heap = Some h' ∧
    reset 0 (Some (Instance 1)) h' = Some h'.
Proof.
  eexists. split; [vm_compute; reflexivity|].
  apply (reset_idempotent 0 (Some (Instance 1)) sample_heap).
  - exact sample_wf.
  - vm_compute. reflexivity.
Defined.

(** X6.  A clone is a snapshot that can be restored: after
    [c = a.clone()] and any sequence of writes to [a] (setters, writes to its
    records, resets), [a.reset(c)] returns and [a] reads again exactly as it
    did when it was cloned; [c] still reads the same. *)
Theorem clone_then_restore (a c : loc) (h h1 h2 : Heap) (s : IFrameStats)
    (os : list op) :
  wf h → observe a h = Some s →
  clone a h = Some (h1, c) →
  Forall (λ o, target o = Some a) os → run os h1 = Some h2 →
  ∃ h3, reset a (Some (Instance c)) h2 = Some h3 ∧
    observe a h3 = Some s ∧ observe c h3 = Some s.
Proof.
  intros W Hs C F R.
  pose proof (observe_is_instance _ _ _ Hs) as Ia.
  destruct (new_is_instance _ _ Ia) as [Ia1 Hne].
  rewrite (clone_stored a h s W Hs) in C. injection C as <- <-.
  set (c := (new_FrameStats h).2) in *.
  set (fr := mk 0 0 0 (fresh (dom (actorRecs h))) (fresh (dom (durationRecs h)))).
  set (h1 := stored c fr s (new_FrameStats h).1) in *.
  assert (frames (new_FrameStats h).1 !! c = Some fr) as Hc
    by apply lookup_insert_eq.
  assert (wf h1) as W1 by (apply stored_wf; [by apply new_wf|done]).
  assert (observe c h1 = Some s) as Oc.
  { subst h1. rewrite stored_observe_this. f_equal.
    eapply observe_recomputed; eauto. }
  assert (is_instance a h1) as Ia'.
  { subst h1. by apply stored_is_instance. }
  pose proof (run_wf _ _ _ W1 R) as W2.
  assert (observe c h2 = Some s) as Oc2.
  { rewrite <- Oc. eapply run_frame; [done| |exact R|].
    - eapply observe_is_instance; eauto.
    - eapply Forall_impl; [exact F|]. simpl. intros o -> [= E]. by apply Hne. }
  destruct (run_is_instance _ _ _ _ W1 Ia' R) as [oa Hoa].
  destruct (wf_cells _ _ _ W2 Hoa) as (ra & da & Hra & Hda).
  exists (stored a oa s h2).
  split; [eapply reset_Some_stored; eauto|]. split.
  - rewrite stored_observe_this. f_equal. eapply observe_recomputed; eauto.
  - rewrite stored_observe_other by (done || congruence). done.
Qed.

Definition cloned_heap : Heap :=
  default empty_heap (fst <$> clone 1 sample_heap).

Definition edits : list op := [SetId 1 8; SetAlive 1 0; Reset 1 None].

Definition edited_heap : Heap := default empty_heap (run edits cloned_heap).

Lemma clone_then_restore_witness :
  clone 1 sample_heap = Some (cloned_heap, 2%nat) ∧
  run edits cloned_heap = Some edited_heap ∧
  observe 1 edited_heap = Some zero_stats ∧
  ∃ h3, reset 1 (Some (Instance 2)) edited_heap = Some h3 ∧
    observe 1 h3 = Some sample_stats ∧ observe 2 h3 = Some sample_stats.
Proof.
  split; [vm_compute; reflexivity|].
  split; [vm_compute; reflexivity|].
  split; [vm_compute; reflexivity|].
  apply (clone_then_restore 1 2 sample_heap cloned_heap edited_heap
           sample_stats edits).
  - exact sample_wf.
  - vm_compute. reflexivity.
  - vm_compute. reflexivity.
  - repeat constructor.
  - vm_compute. reflexivity.
Defined.

(** X7.  [clone] adds exactly one instance and touches no other: the
    instances of the heap afterwards are those before plus the clone, and
    every instance that existed reads as before. *)
Theorem clone_adds_one_instance (a c : loc) (h h' : Heap) :
  wf h → clone a h = Some (h', c) →
  (c ∉ dom (frames h)) ∧
  dom (frames h') = {[c]} ∪ dom (frames h) ∧
  wf h' ∧
  ∀ l, is_instance l h → observe l h' = observe l h.
Proof.
  intros W C.
  destruct (clone_inv _ _ _ _ W C) as (-> & fr & b & Hfr & ->).
  split; [apply is_fresh|].
  split.
  { simpl. rewrite !dom_insert_L.
    apply set_eq. intros x. rewrite !elem_of_union, !elem_of_singleton. tauto. }
  split; [apply stored_wf; [by apply new_wf|done]|].
  intros l Hl. destruct (new_is_instance _ _ Hl) as [_ Hne].
  rewrite stored_observe_other; [by apply new_observe_old|by apply new_wf|done..].
Qed.

Lemma clone_adds_one_instance_witness :
  ∃ h' c, clone 1 sample_heap = Some (h', c) ∧
    (c ∉ dom (frames sample_heap)) ∧
    dom (frames h') = {[c]} ∪ dom (frames sample_heap) ∧
    wf h' ∧
    ∀ l, is_instance l sample_heap → observe l h' = observe l sample_heap.
Proof.
  eexists _, _. split; [vm_compute; reflexivity|].
  apply (clone_adds_one_instance 1 2 sample_heap).
  - exact sample_wf.
  - vm_compute. reflexivity.
Defined.

Lemma stored_overwrite this o o' b b' h :
  _actorStats o' = _actorStats o → _durationStats o' = _durationStats o →
  stored this o' b' (stored this o b h) = stored this o b' h.
Proof.
  intros Ea Ed. unfold stored. simpl. rewrite Ea, Ed.
  by rewrite !insert_insert_eq.
Qed.

Lemma reset_after_stored this other fr b h :
  wf h → frames h !! this = Some fr → other ≠ Some (Instance this) →
  reset this other (stored this fr b h) = reset this other h.
Proof.
  intros W Hfr Hne.
  destruct (wf_cells _ _ _ W Hfr) as (a & d & Ha & Hd).
  set (fr' := mk (id b) (delta b) (fps b) (_actorStats fr) (_durationStats fr)).
  assert (frames (stored this fr b h) !! this = Some fr') as Hfr'
    by apply lookup_insert_eq.
  assert (is_Some (actorRecs (stored this fr b h) !! _actorStats fr') ∧
          is_Some (durationRecs (stored this fr b h) !! _durationStats fr'))
    as [[a' Ha'] [d' Hd']].
  { simpl. rewrite !lookup_insert_eq. eauto. }
  destruct other as [other|].
  - assert (other_view other (stored this fr b h) = other_view other h) as Ev.
    { destruct other as [l|lit]; simpl; [|done].
      apply stored_observe_other; [done..|]. intros ->. by apply Hne. }
    destruct (other_view other h) as [bo|] eqn:Hbo.
    + erewrite !reset_Some_stored by eauto.
      by rewrite stored_overwrite.
    + destruct (reset this (Some other) h) as [h1|] eqn:R1.
      { destruct (reset_Some_inv _ _ _ _ W R1) as (? & ? & _ & ?). congruence. }
      destruct (reset this (Some other) (stored this fr b h)) as [h2|] eqn:R2;
        [|done].
      destruct (reset_Some_inv _ _ _ _ (stored_wf _ _ b _ W Hfr) R2)
        as (? & ? & _ & ?). congruence.
  - erewrite !reset_None_stored by eauto. by rewrite stored_overwrite.
Qed.

(** X8.  [reset] forgets what was written to the receiver before: after
    any sequence of setter calls, record writes and resets on [this], a
    [reset()] or a [reset(other)] from another object gives the heap it
    would have given without them.  This is what lets an instance be
    reused from frame to frame. *)
Theorem reset_forgets_history (this : loc) (other : option IFrameStatsRef)
    (os : list op) (h h1 : Heap) :
  wf h → other ≠ Some (Instance this) →
  Forall (λ o, target o = Some this) os → run os h = Some h1 →
  reset this other h1 = reset this other h.
Proof.
  intros W Hne F. revert h W. induction F as [|o os T F IH]; intros h W R.
  - simpl in R. by injection R as <-.
  - simpl in R. destruct (exec o h) as [h0|] eqn:E; [|discriminate].
    rewrite (IH h0 (exec_wf _ _ _ W E) R).
    destruct (exec_targeted _ _ _ _ W E T) as (fr & b & Hfr & ->).
    by apply reset_after_stored.
Qed.

Lemma reset_forgets_history_witness :
  reset 1 (Some (Instance 2)) edited_heap
  = reset 1 (Some (Instance 2)) cloned_heap.
Proof.
  apply (reset_forgets_history 1 (Some (Instance 2)) edits cloned_heap
           edited_heap).
  - exact (exec_wf (Clone 1) sample_heap cloned_heap sample_wf eq_refl).
  - discriminate.
  - repeat constructor.
  - vm_compute. reflexivity.
Defined.

(** X9.  [new Debug(engine)] holds two distinct, new [FrameStats] in
    [stats.currFrame] and [stats.prevFrame], both reading 0 everywhere, and
    leaves every existing instance as it was.  The two slots never alias:
    no sequence of writes to one of them changes what the other reads. *)
Theorem debug_slots_independent {Engine : Type} (engine : Engine) (h : Heap) :
  wf h →
  let h' := (Debug.new_Debug engine h).1 in
  let curr := Debug.currFrame (Debug.stats (Debug.new_Debug engine h).2) in
  let prev := Debug.prevFrame (Debug.stats (Debug.new_Debug engine h).2) in
  wf h' ∧ curr ≠ prev ∧
  ¬ is_instance curr h ∧ ¬ is_instance prev h ∧
  observe curr h' = Some zero_stats ∧ observe prev h' = Some zero_stats ∧
  (∀ l, is_instance l h → observe l h' = observe l h) ∧
  (∀ os h'', Forall (λ o, target o = Some curr) os → run os h' = Some h'' →
     observe prev h'' = Some zero_stats) ∧
  (∀ os h'', Forall (λ o, target o = Some prev) os → run os h' = Some h'' →
     observe curr h'' = Some zero_stats).
Proof.
  intros W.
  change (Debug.new_Debug engine h).1
    with (new_FrameStats (new_FrameStats h).1).1.
  change (Debug.currFrame (Debug.stats (Debug.new_Debug engine h).2))
    with (new_FrameStats h).2.
  change (Debug.prevFrame (Debug.stats (Debug.new_Debug engine h).2))
    with (new_FrameStats (new_FrameStats h).1).2.
  cbv zeta.
  set (h1 := (new_FrameStats h).1). set (c := (new_FrameStats h).2).
  set (h2 := (new_FrameStats h1).1). set (p := (new_FrameStats h1).2).
  assert (wf h1) as W1 by (by apply new_wf).
  assert (wf h2) as W2 by (by apply new_wf).
  assert (is_instance c h1) as Ic1.
  { unfold is_instance. subst h1 c. simpl. rewrite lookup_insert_eq. eauto. }
  destruct (new_is_instance _ _ Ic1) as [Ic2 Hcp]. fold h2 p in Ic2, Hcp.
  assert (is_instance p h2) as Ip2.
  { unfold is_instance. subst h2 p. simpl. rewrite lookup_insert_eq. eauto. }
  assert (observe c h2 = Some zero_stats) as Oc.
  { subst h2. rewrite new_observe_old by done. apply new_observe_new. }
  assert (observe p h2 = Some zero_stats) as Op by apply new_observe_new.
  split; [done|]. split; [done|].
  split. { unfold is_instance. subst c. rewrite new_fresh. by intros [? ?]. }
  split.
  { intros Ip. destruct (new_is_instance _ _ Ip) as [Ip1 _]. fold h1 in Ip1.
    unfold is_instance in Ip1. subst p. rewrite new_fresh in Ip1.
    by destruct Ip1. }
  split; [done|]. split; [done|].
  split.
  { intros l Hl. destruct (new_is_instance _ _ Hl) as [Hl1 Hne1].
    fold h1 c in Hl1, Hne1.
    destruct (new_is_instance _ _ Hl1) as [_ Hne2]. fold p in Hne2.
    subst h2. rewrite new_observe_old by done. by apply new_observe_old. }
  split.
  - intros os h'' F R. rewrite <- Op.
    eapply run_frame; [done|done|exact R|].
    eapply Forall_impl; [exact F|]. simpl. intros o -> [= E]. by apply Hcp.
  - intros os h'' F R. rewrite <- Oc.
    eapply run_frame; [done|done|exact R|].
    eapply Forall_impl; [exact F|]. simpl. intros o -> [= E]. by apply Hcp.
Qed.

Lemma debug_slots_independent_witness :
  let h' := (Debug.new_Debug tt sample_heap).1 in
  let curr := Debug.currFrame (Debug.stats (Debug.new_Debug tt sample_heap).2) in
  let prev := Debug.prevFrame (Debug.stats (Debug.new_Debug tt sample_heap).2) in
  wf h' ∧ curr ≠ prev ∧
  ¬ is_instance curr sample_heap ∧ ¬ is_instance prev sample_heap ∧
  observe curr h' = Some zero_stats ∧ observe prev h' = Some zero_stats ∧
  (∀ l, is_instance l sample_heap → observe l h' = observe l sample_heap) ∧
  (∀ os h'', Forall (λ o, target o = Some curr) os → run os h' = Some h'' →
     observe prev h'' = Some zero_stats) ∧
  (∀ os h'', Forall (λ o, target o = Some prev) os → run os h' = Some h'' →
     observe curr h'' = Some zero_stats).
Proof. apply (debug_slots_independent tt sample_heap). exact sample_wf. Defined.

End FrameStatsExtras.


(* ===================================================================== *)
(** * Further properties of [Texture] *)
(* ===================================================================== *)

Module TextureExtras.
Import Texture TextureFacts.

(** *** The test of the data-URI branch *)

Lemma prefix_append (s1 s2 : string) : String.prefix s1 (String.append s1 s2) = true.
Proof.
  induction s1 as [|c s1 IH].
  - by destruct s2.
  - simpl. destruct (Ascii.ascii_dec c c) as [_|N]; [exact IH|by destruct N].
Qed.

Lemma index_cons (s1 : string) (c : Ascii.ascii) (s2 : string) :
  String.index 0 s1 (String c s2)
  = if String.prefix s1 (String c s2) then Some 0
    else match String.index 0 s1 s2 with
         | Some n => Some (S n)
         | None => None
         end.
Proof. reflexivity. Qed.

Lemma index_append (a s1 b : string) :
  ∃ n, String.index 0 s1 (String.append a (String.append s1 b)) = Some n ∧
       n ≤ String.length a.
Proof.
  induction a as [|c a IH].
  - exists 0. split; [|simpl; lia].
    change (String.append "" (String.append s1 b)) with (String.append s1 b).
    pose proof (prefix_append s1 b) as P.
    destruct (String.append s1 b) as [|c r] eqn:E.
    + destruct s1; [done|discriminate].
    + by rewrite index_cons, P.
  - destruct IH as (n & Hn & Hle).
    change (String.append (String c a) (String.append s1 b))
      with (String c (String.append a (String.append s1 b))).
    rewrite index_cons, Hn.
    destruct (String.prefix s1 _).
    + exists 0. split; [done|lia].
    + exists (S n). split; [done|simpl; lia].
Qed.

Lemma prefix_split (s1 s2 : string) :
  String.prefix s1 s2 = true → ∃ b, s2 = String.append s1 b.
Proof.
  revert s2. induction s1 as [|c s1 IH]; intros s2.
  - intros _. by exists s2.
  - destruct s2 as [|c' s2]; simpl; [discriminate|].
    destruct (Ascii.ascii_dec c c') as [->|_]; [|discriminate].
    intros H. destruct (IH _ H) as [b ->]. by exists b.
Qed.

Lemma index_split (s1 s2 : string) (n : nat) :
  String.index 0 s1 s2 = Some n →
  ∃ a b, s2 = String.append a (String.append s1 b) ∧ String.length a = n.
Proof.
  revert n. induction s2 as [|c s2 IH]; intros n.
  - simpl. destruct s1; [|discriminate]. intros [= <-]. by exists ""%string, ""%string.
  - rewrite index_cons.
    destruct (String.prefix s1 (String c s2)) eqn:P.
    + intros [= <-]. destruct (prefix_split _ _ P) as [b Hb].
      exists ""%string, b. by rewrite Hb.
    + destruct (String.index 0 s1 s2) as [m|]; [|discriminate].
      intros [= <-]. destruct (IH m eq_refl) as (a & b & -> & <-).
      by exists (String c a), b.
Qed.

(** The test of [load()] succeeds exactly on the paths that contain
    'data:image/'. *)
Lemma is_data_uri_contains (p : string) :
  is_data_uri p = true ↔
  ∃ a b, p = String.append a (String.append "data:image/" b).
Proof.
  unfold is_data_uri, indexOf. split.
  - destruct (String.index 0 "data:image/" p) as [n|] eqn:E; [|done].
    intros _. destruct (index_split _ _ _ E) as (a & b & -> & _). eauto.
  - intros (a & b & ->).
    destruct (index_append a "data:image/" b) as (n & -> & _).
    apply Z.gtb_lt. lia.
Qed.

Section Extras.
Context {SpriteField TextureManager : Type}.
Variable loadIntoAtlas :
  TextureManager → list HTMLImageElement → Texture SpriteField →
  TextureManager * ManagedSprite SpriteField.

Abbreviation World := (World SpriteField TextureManager).

#[local] Existing Instance Js_ret.
#[local] Existing Instance Js_bind.

(** *** [load()] in any state *)

Lemma lookup_snoc {A} (l : list A) (x : A) : (l ++ [x]) !! length l = Some x.
Proof. by rewrite lookup_app_r, Nat.sub_diag by lia. Qed.

Lemma insert_snoc {A} (l : list A) (x y : A) :
  <[length l := y]> (l ++ [x]) = l ++ [y].
Proof. by rewrite insert_app_r_alt, Nat.sub_diag by lia. Qed.

(** The image element a call of [load()] leaves behind on the data-URI
    branch, [c] being the promise of the call. *)
Definition inline_image (p : string) (c : loc) : HTMLImageElement :=
  mkImage (Some p) 0 0 [InlineOnLoad c] false.

(** The one the success callback of a fetch leaves behind. *)
Definition fetched_image (payload : string) (c : loc) : HTMLImageElement :=
  mkImage (Some payload) 0 0 [FetchedOnLoad c] false.

Lemma load_inline_any (w : World) :
  is_data_uri (path (this w)) = true →
  load w
  = (Ok (length (promises w)),
     mkWorld (with_image (Some (length (images w))) (this w)) (manager w)
       (images w ++ [inline_image (path (this w)) (length (promises w))])
       (promises w ++ [Pending]) (requests w)).
Proof.
  unfold is_data_uri. intros H.
  unfold load, mbind, Js_bind, mret, Js_ret. simpl. rewrite H.
  unfold this_image, addEventListener, set_src, upd_image. simpl.
  repeat first [ rewrite (lookup_snoc (images w))
               | rewrite (insert_snoc (images w))
               | progress (unfold upd_images, upd_this, upd_promises; simpl) ].
  reflexivity.
Qed.

Lemma load_fetched_any (w : World) :
  is_data_uri (path (this w)) = false →
  load w
  = (Ok (length (promises w)),
     mkWorld (this w) (manager w) (images w) (promises w ++ [Pending])
       (requests w ++ [mkRequest (length (promises w)) false])).
Proof.
  unfold is_data_uri. intros H.
  unfold load, mbind, Js_bind, mret, Js_ret. simpl. rewrite H. reflexivity.
Qed.

Lemma on_fetch_success_any (c : loc) (w : World) (d : string) :
  data (this w) = Some d →
  (on_fetch_success c w).2
  = mkWorld (with_image (Some (length (images w))) (this w)) (manager w)
      (images w ++ [fetched_image d c]) (promises w) (requests w).
Proof.
  intros Hd.
  unfold on_fetch_success, mbind, Js_bind, this_image, addEventListener,
    set_src, upd_image, getData. simpl.
  repeat first [ rewrite (lookup_snoc (images w))
               | rewrite (insert_snoc (images w))
               | rewrite Hd
               | progress (unfold upd_images, upd_this, upd_promises; simpl) ].
  reflexivity.
Qed.

(** X11.  [load()] never throws, whatever happened to the texture before.
    It returns a new promise, pending and distinct from those of earlier
    calls, which it leaves as they were.  It works asynchronously: when it
    returns, [isLoaded()], [width], [height], the sprite, [loaded] and the
    manager are unchanged, and so is every image element created before.
    On the data-URI branch it has created one more image element, made
    it [this.image], given it one listener and the path as its source. *)
Theorem load_returns_new_pending_promise (w : World) :
  let c := length (promises w) in
  let w' := (load w).2 in
  (load w).1 = Ok c ∧
  promises w' = promises w ++ [Pending] ∧
  promises w' !! c = Some Pending ∧
  isLoaded w' = isLoaded w ∧
  width (this w') = width (this w) ∧ height (this w') = height (this w) ∧
  asSprite w' = asSprite w ∧ loaded (this w') = loaded (this w) ∧
  manager w' = manager w ∧
  (if is_data_uri (path (this w)) then
     images w' = images w ++ [inline_image (path (this w)) c] ∧
     image (this w') = Some (length (images w)) ∧
     requests w' = requests w
   else
     images w' = images w ∧ image (this w') = image (this w) ∧
     length (requests w') = S (length (requests w))).
Proof.
  destruct (is_data_uri (path (this w))) eqn:H; cbv zeta.
  - rewrite load_inline_any by done. simpl.
    rewrite (lookup_snoc (promises w)). repeat split.
  - rewrite load_fetched_any by done. simpl.
    rewrite (lookup_snoc (promises w)), length_app. simpl. repeat split. lia.
Qed.

(** X10.  [load()] takes the data-URI branch exactly when the path
    contains 'data:image/' somewhere, not only at its start: on such a path
    it creates an image element with the path as its source and starts no
    fetch; on every other path it starts a fetch and creates no image
    element. *)
Theorem load_branch_is_containment (w : World) :
  let contains :=
    ∃ a b, path (this w) = String.append a (String.append "data:image/" b) in
  let c := length (promises w) in
  (contains →
   images (load w).2 = images w ++ [inline_image (path (this w)) c] ∧
   requests (load w).2 = requests w) ∧
  (¬ contains →
   images (load w).2 = images w ∧
   requests (load w).2 = requests w ++ [mkRequest c false]).
Proof.
  cbv zeta. split.
  - intros H. apply is_data_uri_contains in H.
    rewrite load_inline_any by done. split; reflexivity.
  - intros H. destruct (is_data_uri (path (this w))) eqn:E.
    + destruct H. by apply is_data_uri_contains.
    + rewrite load_fetched_any by done. split; reflexivity.
Qed.

(** *** What holds of a texture in every state it can reach *)

(** A promise that has not been rejected. *)
Definition not_rejected (q : PromiseState (option loc)) : Prop :=
  ∀ e, q ≠ Rejected e.

(** The listener of the fetched branch is only ever registered by the
    success callback of a fetch: the path is no data URI and the payload
    is there. *)
Definition legit (p : string) (w : World) (l : Listener) : Prop :=
  match l with
  | InlineOnLoad _ => True
  | FetchedOnLoad _ => is_data_uri p = false ∧ is_Some (data (this w))
  end.

Record Inv (p : string) (w : World) : Prop := mkInv {
  inv_path : path (this w) = p;
  inv_loaded : not_rejected (loaded (this w));
  inv_image :
    match image (this w) with
    | Some i => i < length (images w)
    | None => images w = []
    end;
  inv_inline :
    is_data_uri p = true →
    requests w = [] ∧ Forall not_rejected (promises w);
  inv_listeners : Forall (λ el, Forall (legit p w) (listeners el)) (images w);
  inv_isLoaded :
    _isLoaded (this w) = true →
    is_data_uri p = false ∧ is_Some (data (this w)) ∧
    is_Some (width (this w)) ∧ is_Some (height (this w)) ∧
    ∃ v, loaded (this w) = Resolved v }.

Lemma new_Texture_Inv p b m : Inv p (new_Texture p b m).
Proof.
  split; simpl; done.
Qed.

Lemma legit_data p (w w' : World) l :
  (is_Some (data (this w)) → is_Some (data (this w'))) →
  legit p w l → legit p w' l.
Proof. destruct l; simpl; [done|]. intros H [? ?]. auto. Qed.

Lemma listeners_data p (w w' : World) (ims : list HTMLImageElement) :
  (is_Some (data (this w)) → is_Some (data (this w'))) →
  Forall (λ el, Forall (legit p w) (listeners el)) ims →
  Forall (λ el, Forall (legit p w') (listeners el)) ims.
Proof.
  intros Hd H. eapply Forall_impl; [exact H|]. simpl. intros el Hel.
  eapply Forall_impl; [exact Hel|]. intros l. by apply legit_data.
Qed.

Lemma not_rejected_insert (ps : list (PromiseState (option loc))) c v :
  Forall not_rejected ps → Forall not_rejected (<[c := Resolved v]> ps).
Proof. intros H. apply Forall_insert; [done|]. by intros e. Qed.

(** A listener keeps the invariant, the image elements and the payload. *)
Lemma run_listener_Inv p l (w : World) :
  Inv p w → images w ≠ [] → legit p w l →
  Inv p (run_listener loadIntoAtlas l w).2 ∧
  images (run_listener loadIntoAtlas l w).2 = images w ∧
  data (this (run_listener loadIntoAtlas l w).2) = data (this w).
Proof.
  intros [Ip Il Ii In Ils Iil] Hne Hl.
  destruct (image (this w)) as [i|] eqn:Hi; [|done].
  destruct (lookup_lt_is_Some_2 _ _ Ii) as [el Hel].
  destruct l as [c|c]; simpl.
  - unfold on_inline_load, mbind, Js_bind, this_image, sprite_from_atlas,
      resolve_loaded, resolve_complete. simpl.
    rewrite Hi, Hel. simpl. rewrite Hi, Hel. simpl.
    destruct (loadIntoAtlas _ _ _) as [m' s]. simpl.
    destruct (loaded (this w)) as [|v|e] eqn:Hld; simpl;
      [|clear Hl|by destruct (Il e)].
    + destruct (promises w !! c) as [[|v'|e']|] eqn:Hc; simpl.
      all: split; [|done].
      all: split; simpl; rewrite ?Hi; try done.
      all: try (intros H; destruct (In H) as [? ?]; split; [done|];
                by apply not_rejected_insert).
      all: intros H; destruct (Iil H) as (? & ? & _ & _ & _); eauto 10.
    + split; [|done]. split; simpl; rewrite ?Hi, ?Hld; try done.
      intros H; destruct (Iil H) as (? & ? & _ & _ & _); eauto 10.
  - destruct Hl as [Hp Hd].
    unfold on_fetched_load, mbind, Js_bind, this_image, resolve_loaded,
      resolve_complete. simpl.
    rewrite Hi, Hel. simpl. rewrite Hi, Hel. simpl.
    destruct (loaded (this w)) as [|v|e] eqn:Hld; simpl;
      [| |by destruct (Il e)].
    + destruct (promises w !! c) as [[|v'|e']|] eqn:Hc; simpl.
      all: split; [|done].
      all: split; simpl; rewrite ?Hi; try done.
      all: try (intros H; destruct (In H) as [? ?]; split; [done|];
                by apply not_rejected_insert).
      all: intros _; eauto 10.
    + split; [|done]. split; simpl; rewrite ?Hi, ?Hld; try done.
      intros _; eauto 10.
Qed.

Lemma dispatch_Inv p ls (w : World) :
  Inv p w → images w ≠ [] → Forall (legit p w) ls →
  Inv p (dispatch loadIntoAtlas ls w).
Proof.
  unfold dispatch. revert w.
  induction ls as [|l ls IH]; intros w I Hne F; simpl; [done|].
  inversion F as [|? ? Hl F']; subst.
  destruct (run_listener_Inv p l w I Hne Hl) as (I' & Ei & Ed).
  apply IH; [done|by rewrite Ei|].
  eapply Forall_impl; [exact F'|]. intros l'. apply legit_data. by rewrite Ed.
Qed.

Lemma requests_not_inline p (w : World) r q :
  Inv p w → requests w !! r = Some q → is_data_uri p = false.
Proof.
  intros I Hr. destruct (is_data_uri p) eqn:H; [|done].
  destruct (inv_inline _ _ I H) as [E _]. by rewrite E in Hr.
Qed.

Lemma step_Inv p e (w : World) : Inv p w → Inv p (step loadIntoAtlas e w).
Proof.
  intros I. pose proof I as [Ip Il Ii In Ils Iil].
  destruct e as [|r payload|r|i nw nh]; simpl.
  - (* load() *)
    destruct (is_data_uri (path (this w))) eqn:H.
    + rewrite load_inline_any by done. split; simpl; try done.
      * rewrite length_app. simpl. lia.
      * intros Hp. destruct (In Hp) as [? ?]. split; [done|].
        apply Forall_app. split; [done|]. by repeat constructor.
      * apply Forall_app. split; [|by repeat constructor].
        by apply (listeners_data p w).
    + rewrite load_fetched_any by done. split; simpl; try done.
      intros Hp. congruence.
  - (* the fetch succeeds *)
    destruct (requests w !! r) as [q|] eqn:Hr; [|done].
    destruct (settled q); [done|].
    pose proof (requests_not_inline _ _ _ _ I Hr) as Hp.
    erewrite on_fetch_success_any by reflexivity.
    split; simpl; try done.
    + rewrite length_app. simpl. lia.
    + intros Hp'. congruence.
    + apply Forall_app. split.
      * apply (listeners_data p w); [simpl; eauto|done].
      * repeat constructor; simpl; eauto.
    + intros H. destruct (Iil H) as (? & _ & ? & ? & ?). eauto 10.
  - (* the fetch fails *)
    destruct (requests w !! r) as [q|] eqn:Hr; [|done].
    destruct (settled q); [done|].
    pose proof (requests_not_inline _ _ _ _ I Hr) as Hp.
    unfold on_fetch_failure, reject_complete. simpl.
    destruct (promises w !! complete q) as [[|v|e']|]; simpl.
    all: split; simpl; try done.
    all: intros Hp'; congruence.
  - (* the image element fires its load event *)
    destruct (images w !! i) as [el|] eqn:Hel; [|done].
    destruct (src el) as [u|] eqn:Hsrc; [|done].
    destruct (fired el); [done|].
    apply dispatch_Inv.
    + split; simpl; try done.
      * rewrite length_insert.
        destruct (image (this w)); [exact Ii|].
        rewrite Ii in Hel. by rewrite lookup_nil in Hel.
      * apply Forall_insert; [exact Ils|].
        exact (Forall_lookup_1 _ _ _ _ Ils Hel).
    + simpl. intros E. apply (f_equal length) in E.
      rewrite length_insert in E. apply lookup_lt_Some in Hel.
      simpl in E. lia.
    + exact (Forall_lookup_1 _ _ _ _ Ils Hel).
Qed.

Lemma run_Inv p es (w : World) : Inv p w → Inv p (run loadIntoAtlas es w).
Proof.
  unfold run. revert w. induction es as [|e es IH]; intros w I; simpl.
  - done.
  - apply IH. by apply step_Inv.
Qed.

(** X12.  [loaded] is never rejected: in every state a new texture can
    reach, through any calls of [load()], fetch results and load events, it
    is pending or resolved. *)
Theorem loaded_never_rejected (p : string) (b : option bool)
    (m : TextureManager) (es : list event) :
  let w := run loadIntoAtlas es (new_Texture p b m) in
  loaded (this w) = Pending ∨ ∃ v, loaded (this w) = Resolved v.
Proof.
  pose proof (run_Inv p es _ (new_Texture_Inv p b m)) as [_ Il _ _ _ _].
  cbv zeta. destruct (loaded _) as [|v|e]; eauto.
  by destruct (Il e).
Qed.

(** X13.  [isLoaded()] is true only of a texture whose load has completed:
    in every reachable state, if it returns true then [width] and [height]
    are defined and [loaded] is resolved. *)
Theorem isLoaded_means_completely_loaded (p : string) (b : option bool)
    (m : TextureManager) (es : list event) :
  let w := run loadIntoAtlas es (new_Texture p b m) in
  isLoaded w = true →
  is_Some (width (this w)) ∧ is_Some (height (this w)) ∧
  ∃ v, loaded (this w) = Resolved v.
Proof.
  pose proof (run_Inv p es _ (new_Texture_Inv p b m)) as [_ _ _ _ _ Iil].
  cbv zeta. intros H. destruct (Iil H) as (? & ? & ? & ? & ?). eauto 10.
Qed.

(** X14.  A texture built on a data URI never starts a fetch, and no
    future it has handed out is ever rejected: the data-URI branch
    registers no error listener, so a decode that fails leaves the future
    of [load()] pending.  The path of a texture never changes. *)
Theorem data_uri_never_rejects (p : string) (b : option bool)
    (m : TextureManager) (es : list event) :
  is_data_uri p = true →
  let w := run loadIntoAtlas es (new_Texture p b m) in
  path (this w) = p ∧
  requests w = [] ∧
  ∀ c e, promises w !! c ≠ Some (Rejected e).
Proof.
  intros H.
  pose proof (run_Inv p es _ (new_Texture_Inv p b m)) as [Ip _ _ In _ _].
  cbv zeta. destruct (In H) as [Er Fp].
  split; [done|]. split; [done|].
  intros c e Hc. exact (Forall_lookup_1 _ _ _ _ Fp Hc e eq_refl).
Qed.

(** X15.  The listeners read [this.image], not the element that fired.
    When [load()] is called twice on a data URI before the first decode
    completes, the load event of the first element finds the second, still
    undecoded element in [this.image]: [width] and [height] become 0, not
    the natural size of the decoded element, and [loaded] and the future of
    the first call are resolved with the second element, while the future
    of the second call is still pending. *)
Theorem listener_reads_current_image (p : string) (b : option bool)
    (m : TextureManager) (nw nh : N) :
  is_data_uri p = true →
  let w := run loadIntoAtlas [Load; Load; ImageLoad 0 nw nh]
             (new_Texture p b m) in
  images w !! 0%nat = Some (mkImage (Some p) nw nh [InlineOnLoad 0] true) ∧
  images w !! 1%nat = Some (inline_image p 1) ∧
  image (this w) = Some 1%nat ∧
  width (this w) = Some 0%N ∧ height (this w) = Some 0%N ∧
  loaded (this w) = Resolved (Some 1%nat) ∧
  promises w !! 0%nat = Some (Resolved (Some 1%nat)) ∧
  promises w !! 1%nat = Some Pending.
Proof.
  intros H. cbv zeta.
  rewrite run_inline, run_cons, step_Load by done.
  rewrite load_inline_any by done.
  rewrite run_cons, run_nil.
  unfold step, dispatch, run_listener, on_inline_load, sprite_from_atlas,
    mbind, Js_bind. simpl.
  destruct (loadIntoAtlas _ _ _) as [m' s']. simpl. repeat split.
Qed.

(** X16.  The fetched branch, from start to end.  After [load()] and a
    successful fetch the texture is not loaded yet: an image element with
    the payload as its source is waiting for its decode, [isLoaded()] is
    false, [width] is undefined and both futures are pending.  Once the
    element fires its load event, [isLoaded()] is true, [width] and
    [height] are its natural size, and [loaded] and the future of [load()]
    are resolved with it. *)
Theorem fetched_load_completes (p : string) (b : option bool)
    (m : TextureManager) (d : string) (nw nh : N) :
  is_data_uri p = false →
  (let w := run loadIntoAtlas [Load; FetchDone 0 d] (new_Texture p b m) in
   image (this w) = Some 0%nat ∧
   images w !! 0%nat = Some (fetched_image d 0) ∧
   isLoaded w = false ∧ width (this w) = None ∧ height (this w) = None ∧
   loaded (this w) = Pending ∧ promises w !! 0%nat = Some Pending) ∧
  (let w := run loadIntoAtlas [Load; FetchDone 0 d; ImageLoad 0 nw nh]
              (new_Texture p b m) in
   image (this w) = Some 0%nat ∧
   images w !! 0%nat = Some (mkImage (Some d) nw nh [FetchedOnLoad 0] true) ∧
   isLoaded w = true ∧
   width (this w) = Some nw ∧ height (this w) = Some nh ∧
   loaded (this w) = Resolved (Some 0%nat) ∧
   promises w !! 0%nat = Some (Resolved (Some 0%nat))).
Proof.
  intros H. cbv zeta. split.
  - rewrite run_fetched, run_cons, run_nil, step_fetch_done by done.
    repeat split.
  - rewrite run_fetched, !run_cons, run_nil by done.
    rewrite step_fetch_done, step_fetched_decoded. repeat split.
Qed.

End Extras.

Lemma fetched_load_completes_witness :
  is_data_uri remote_path = false ∧
  (let w := run recording_manager [Load; FetchDone 0 "blob:1"] remote_texture in
   image (this w) = Some 0%nat ∧
   images w !! 0%nat = Some (@fetched_image "blob:1" 0) ∧
   isLoaded w = false ∧ width (this w) = None ∧ height (this w) = None ∧
   loaded (this w) = Pending ∧ promises w !! 0%nat = Some Pending) ∧
  (let w := run recording_manager [Load; FetchDone 0 "blob:1"; ImageLoad 0 10 20]
              remote_texture in
   image (this w) = Some 0%nat ∧
   images w !! 0%nat
     = Some (mkImage (Some "blob:1") 10 20 [FetchedOnLoad 0] true) ∧
   isLoaded w = true ∧
   width (this w) = Some 10%N ∧ height (this w) = Some 20%N ∧
   loaded (this w) = Resolved (Some 0%nat) ∧
   promises w !! 0%nat = Some (Resolved (Some 0%nat))).
Proof.
  split; [reflexivity|].
  apply (fetched_load_completes recording_manager remote_path None []
           "blob:1" 10 20).
  reflexivity.
Defined.

Lemma isLoaded_means_completely_loaded_witness :
  let w := run recording_manager [Load; FetchDone 0 "blob:1"; ImageLoad 0 10 20]
             remote_texture in
  isLoaded w = true ∧
  is_Some (width (this w)) ∧ is_Some (height (this w)) ∧
  ∃ v, loaded (this w) = Resolved v.
Proof.
  split; [reflexivity|].
  apply (isLoaded_means_completely_loaded recording_manager remote_path None []
           [Load; FetchDone 0 "blob:1"; ImageLoad 0 10 20]).
  reflexivity.
Defined.

Lemma data_uri_never_rejects_witness :
  let w := run recording_manager [Load; FetchFailed 0; ImageLoad 0 10 20; Load]
             inline_texture in
  is_data_uri inline_path = true ∧
  path (this w) = inline_path ∧
  requests w = [] ∧
  ∀ c e, promises w !! c ≠ Some (Rejected e).
Proof.
  split; [reflexivity|].
  apply (data_uri_never_rejects recording_manager inline_path None []
           [Load; FetchFailed 0; ImageLoad 0 10 20; Load]).
  reflexivity.
Defined.

Lemma listener_reads_current_image_witness :
  let w := run recording_manager [Load; Load; ImageLoad 0 10 20]
             inline_texture in
  is_data_uri inline_path = true ∧
  images w !! 0%nat
    = Some (mkImage (Some inline_path) 10 20 [InlineOnLoad 0] true) ∧
  images w !! 1%nat = Some (inline_image inline_path 1) ∧
  image (this w) = Some 1%nat ∧
  width (this w) = Some 0%N ∧ height (this w) = Some 0%N ∧
  loaded (this w) = Resolved (Some 1%nat) ∧
  promises w !! 0%nat = Some (Resolved (Some 1%nat)) ∧
  promises w !! 1%nat = Some Pending.
Proof.
  split; [reflexivity|].
  apply (listener_reads_current_image recording_manager inline_path None []
           10 20).
  reflexivity.
Defined.

End TextureExtras.
